(** * Dead code elimination and module I/O dispatch of binaryen

    A shallow embedding of [src/passes/DeadCodeElimination.cpp] and
    [src/wasm/wasm-io.cpp].

    The pass is embedded the way it is written: a walker object holding
    the [reachable] flag, the [reachableBreaks] set and the [ifStack],
    driven by a stack of tasks that point into the function body.
    Pointers [Expression**] are paths into the body, so that in-place
    mutation and [replaceCurrent] are updates of one shared tree. *)

From Stdlib Require Import Ascii String.
From stdpp Require Import gmap strings list.

Set Default Proof Using "Type".
#[local] Set Warnings "-clear-no-such-hyp".

(** ** Module I/O: [wasm-io.cpp] *)

Module WasmIO.

Open Scope string_scope.

(** [std::string::rfind(char)]: the index of the last occurrence, [None]
    for [std::string::npos]. *)
Fixpoint rfind (c : ascii) (s : string) : option nat :=
  match s with
  | EmptyString => None
  | String a s' =>
      match rfind c s' with
      | Some i => Some (S i)
      | None => if Ascii.eqb a c then Some 0 else None
      end
  end.

(** [std::string::substr(pos)]: the characters from [pos] on; [None]
    stands for the [std::out_of_range] thrown when [pos > size()]. *)
Fixpoint substr (pos : nat) (s : string) : option string :=
  match pos, s with
  | 0, _ => Some s
  | S n, String _ s' => substr n s'
  | S _, EmptyString => None
  end.

Definition getSuffix (filename : string) : option string :=
  match rfind "."%char filename with
  | None => Some ""
  | Some index => substr (index + 1) filename
  end.

(** The two member functions a dispatch can end in. *)
Inductive ReaderCall :=
| readText (filename : string)
| readBinary (filename : string).

Inductive WriterCall :=
| writeText (filename : string)
| writeBinary (filename : string).

(** The condition of the inner [if] of [ModuleReader::read], with the
    short-circuit [&&] chain as written: all four comparisons read
    [contents[0]]. *)
Definition magicCheck (contents : list ascii) : bool :=
  (4 <=? length contents)%nat &&
  match contents with
  | c0 :: _ =>
      Ascii.eqb c0 "000"%char && Ascii.eqb c0 "a"%char &&
      Ascii.eqb c0 "s"%char && Ascii.eqb c0 "m"%char
  | [] => false
  end.

(** [ModuleReader::read]; [read_file] is the file system. *)
Definition ModuleReader_read (read_file : string → list ascii)
    (filename : string) : option ReaderCall :=
  suffix ← getSuffix filename;
  if String.eqb suffix "wast" then Some (readText filename)
  else if String.eqb suffix "wasm" then Some (readBinary filename)
  else
    let contents := read_file filename in
    if magicCheck contents then Some (readBinary filename)
    else Some (readText filename).

(** [ModuleWriter::write]. *)
Definition ModuleWriter_write (filename : string) : option WriterCall :=
  suffix ← getSuffix filename;
  if String.eqb suffix "wasm" then Some (writeBinary filename)
  else Some (writeText filename).

(** What [getSuffix] is meant to return, in words: the text after the
    last dot, and the empty string when the name has no dot. *)
Fixpoint hasChar (c : ascii) (s : string) : bool :=
  match s with
  | EmptyString => false
  | String a s' => Ascii.eqb a c || hasChar c s'
  end.

Definition isSuffixOf (filename suffix : string) : Prop :=
  (hasChar "."%char filename = false ∧ suffix = "") ∨
  (∃ stem, filename = stem +:+ String "."%char suffix ∧ hasChar "."%char suffix = false).

End WasmIO.

(** ** The dead code elimination pass: [DeadCodeElimination.cpp] *)

Module DCE.

(** *** The AST *)

(** Modelled from the spec: the result types of [wasm.h], which is not
    part of the sources: "{i32, i64, f32, f64, none, unreachable}". *)
Inductive WasmType := none | i32 | i64 | f32 | f64 | unreachable.

#[global] Instance WasmType_eq_dec : EqDecision WasmType.
Proof. solve_decision. Defined.

(** Modelled from the spec: [Name], "a symbol naming a labeled Block or
    Loop", an interned string in [wasm.h]; [None] is the null name of a
    block or loop without label, for which [is()] is false. *)
Abbreviation Name := (option string).

Definition Name_is (name : Name) : bool :=
  match name with Some _ => true | None => false end.

Abbreviation Index := nat.

(** Modelled from the spec: the expression variants of [wasm.h], which
    is not part of the sources.  The variants are those [scan]
    dispatches on, the children those the visitors read and the
    specification lists, in its words "each variant carries a declared
    result type"; what else a node holds (an operator, an index, a
    callee) is kept as a number or a name. *)
#[warnings="-register-all"]
Inductive Expression :=
| Block (name : Name) (list : list Expression) (type : WasmType)
| If (condition ifTrue : Expression) (ifFalse : option Expression)
     (type : WasmType)
| Loop (name : Name) (body : Expression) (type : WasmType)
| Break (name : Name) (value condition : option Expression) (type : WasmType)
| Switch (targets : list Name) (default_ : Name) (value : option Expression)
         (condition : Expression) (type : WasmType)
| Call (target : Name) (operands : list Expression) (type : WasmType)
| CallImport (target : Name) (operands : list Expression) (type : WasmType)
| CallIndirect (operands : list Expression) (target : Expression)
               (type : WasmType)
| GetLocal (index : Index) (type : WasmType)
| SetLocal (index : Index) (value : Expression) (type : WasmType)
| GetGlobal (name : Name) (type : WasmType)
| SetGlobal (name : Name) (value : Expression) (type : WasmType)
| Load (ptr : Expression) (type : WasmType)
| Store (ptr value : Expression) (type : WasmType)
| Const (value : Z) (type : WasmType)
| Unary (op : nat) (value : Expression) (type : WasmType)
| Binary (op : nat) (left right : Expression) (type : WasmType)
| Select (ifTrue ifFalse condition : Expression) (type : WasmType)
| Drop (value : Expression) (type : WasmType)
| Return (value : option Expression)
| Host (op : nat) (operands : list Expression) (type : WasmType)
| Nop
| Unreachable.

(** [curr->type].  [Return] and [Unreachable] are always of type
    [unreachable], [Nop] of type [none]. *)
Definition typeOf (e : Expression) : WasmType :=
  match e with
  | Block _ _ t | If _ _ _ t | Loop _ _ t | Break _ _ _ t | Switch _ _ _ _ t
  | Call _ _ t | CallImport _ _ t | CallIndirect _ _ t | GetLocal _ t
  | SetLocal _ _ t | GetGlobal _ t | SetGlobal _ _ t | Load _ t | Store _ _ t
  | Const _ t | Unary _ _ t | Binary _ _ _ t | Select _ _ _ t | Drop _ t
  | Host _ _ t => t
  | Return _ => unreachable
  | Nop => none
  | Unreachable => unreachable
  end.

(** [curr->type = type]; [Return], [Nop] and [Unreachable] have no type of
    their own to set. *)
Definition setType (e : Expression) (t : WasmType) : Expression :=
  match e with
  | Block n l _ => Block n l t
  | If c tr fa _ => If c tr fa t
  | Loop n b _ => Loop n b t
  | Break n v c _ => Break n v c t
  | Switch ts d v c _ => Switch ts d v c t
  | Call n ops _ => Call n ops t
  | CallImport n ops _ => CallImport n ops t
  | CallIndirect ops tg _ => CallIndirect ops tg t
  | GetLocal i _ => GetLocal i t
  | SetLocal i v _ => SetLocal i v t
  | GetGlobal n _ => GetGlobal n t
  | SetGlobal n v _ => SetGlobal n v t
  | Load p _ => Load p t
  | Store p v _ => Store p v t
  | Const v _ => Const v t
  | Unary o v _ => Unary o v t
  | Binary o l r _ => Binary o l r t
  | Select tr fa c _ => Select tr fa c t
  | Drop v _ => Drop v t
  | Host o ops _ => Host o ops t
  | Return _ | Nop | Unreachable => e
  end.

(** *** Pointers into the tree

    A task holds an [Expression**]: the address of a field of a node (or
    of the function's [body]).  A field is named by a selector, a pointer
    by the selectors from the body down to it. *)

Inductive Field :=
| fList (i : Index)
| fOperand (i : Index)
| fCondition | fIfTrue | fIfFalse | fBody | fValue | fTarget | fPtr
| fLeft | fRight.

#[global] Instance Field_eq_dec : EqDecision Field.
Proof. solve_decision. Defined.

Abbreviation Path := (list Field).

Definition getField (e : Expression) (f : Field) : option Expression :=
  match f, e with
  | fList i, Block _ l _ => l !! i
  | fOperand i, (Call _ ops _ | CallImport _ ops _ | CallIndirect ops _ _
                | Host _ ops _) => ops !! i
  | fCondition, (If c _ _ _ | Switch _ _ _ c _ | Select _ _ c _) => Some c
  | fCondition, Break _ _ c _ => c
  | fIfTrue, (If _ t _ _ | Select t _ _ _) => Some t
  | fIfFalse, If _ _ f _ => f
  | fIfFalse, Select _ f _ _ => Some f
  | fBody, Loop _ b _ => Some b
  | fValue, (Break _ v _ _ | Switch _ _ v _ _ | Return v) => v
  | fValue, (SetLocal _ v _ | SetGlobal _ v _ | Store _ v _ | Unary _ v _
            | Drop v _) => Some v
  | fTarget, CallIndirect _ t _ => Some t
  | fPtr, (Load p _ | Store p _ _) => Some p
  | fLeft, Binary _ l _ _ => Some l
  | fRight, Binary _ _ r _ => Some r
  | _, _ => None
  end.

(** Storing [c] into a field that holds a child. *)
Definition setField (e : Expression) (f : Field) (c : Expression) : Expression :=
  match f, e with
  | fList i, Block n l t => Block n (<[i:=c]> l) t
  | fOperand i, Call n ops t => Call n (<[i:=c]> ops) t
  | fOperand i, CallImport n ops t => CallImport n (<[i:=c]> ops) t
  | fOperand i, CallIndirect ops tg t => CallIndirect (<[i:=c]> ops) tg t
  | fOperand i, Host o ops t => Host o (<[i:=c]> ops) t
  | fCondition, If _ tr fa t => If c tr fa t
  | fCondition, Switch ts d v _ t => Switch ts d v c t
  | fCondition, Select tr fa _ t => Select tr fa c t
  | fCondition, Break n v (Some _) t => Break n v (Some c) t
  | fIfTrue, If co _ fa t => If co c fa t
  | fIfTrue, Select _ fa co t => Select c fa co t
  | fIfFalse, If co tr (Some _) t => If co tr (Some c) t
  | fIfFalse, Select tr _ co t => Select tr c co t
  | fBody, Loop n _ t => Loop n c t
  | fValue, Break n (Some _) co t => Break n (Some c) co t
  | fValue, Switch ts d (Some _) co t => Switch ts d (Some c) co t
  | fValue, Return (Some _) => Return (Some c)
  | fValue, SetLocal i _ t => SetLocal i c t
  | fValue, SetGlobal n _ t => SetGlobal n c t
  | fValue, Store p _ t => Store p c t
  | fValue, Unary o _ t => Unary o c t
  | fValue, Drop _ t => Drop c t
  | fTarget, CallIndirect ops _ t => CallIndirect ops c t
  | fPtr, Load _ t => Load c t
  | fPtr, Store _ v t => Store c v t
  | fLeft, Binary o _ r t => Binary o c r t
  | fRight, Binary o l _ t => Binary o l c t
  | _, _ => e
  end.

(** [*currp] and [*currp = new_]. *)
Fixpoint getAt (root : Expression) (p : Path) : option Expression :=
  match p with
  | [] => Some root
  | f :: p' => c ← getField root f; getAt c p'
  end.

Fixpoint setAt (root : Expression) (p : Path) (new_ : Expression) : Expression :=
  match p with
  | [] => new_
  | f :: p' =>
      match getField root f with
      | Some c => setField root f (setAt c p' new_)
      | None => root
      end
  end.

(** The fields of a node that hold a child, in evaluation order. *)
Definition optField (o : option Expression) (f : Field) : list Field :=
  match o with Some _ => [f] | None => [] end.

Definition childFields (e : Expression) : list Field :=
  match e with
  | Block _ l _ => fList <$> seq 0 (length l)
  | If _ _ f _ => [fCondition; fIfTrue] ++ optField f fIfFalse
  | Loop _ _ _ => [fBody]
  | Break _ v c _ => optField v fValue ++ optField c fCondition
  | Switch _ _ v _ _ => optField v fValue ++ [fCondition]
  | Call _ ops _ | CallImport _ ops _ | Host _ ops _ =>
      fOperand <$> seq 0 (length ops)
  | CallIndirect ops _ _ => (fOperand <$> seq 0 (length ops)) ++ [fTarget]
  | SetLocal _ _ _ | SetGlobal _ _ _ | Unary _ _ _ | Drop _ _ => [fValue]
  | Load _ _ => [fPtr]
  | Store _ _ _ => [fPtr; fValue]
  | Binary _ _ _ _ => [fLeft; fRight]
  | Select _ _ _ _ => [fIfTrue; fIfFalse; fCondition]
  | Return v => optField v fValue
  | GetLocal _ _ | GetGlobal _ _ | Const _ _ | Nop | Unreachable => []
  end.

(** The nodes above the one [p] points at, each given a new type, the
    lowest first; [choose] is given the pointer to the node it retypes
    and the node as it stands, its child already retyped.  Nothing but
    the types of these nodes changes. *)
Fixpoint retypeAncestors (choose : Path → Expression → WasmType)
    (above p : Path) (root : Expression) : Expression :=
  match p with
  | [] => root
  | f :: p' =>
      match getField root f with
      | Some c =>
          let root := setField root f (retypeAncestors choose (above ++ [f]) p' c) in
          setType root (choose above root)
      | None => root
      end
  end.

(** [placedAt p root root' e]: [root'] is [root] with [e] at [p] and with
    the nodes above [p] retyped. *)
Fixpoint placedAt (p : Path) (root root' e : Expression) : Prop :=
  match p with
  | [] => root' = e
  | f :: p' =>
      ∃ c c' t, getField root f = Some c ∧ placedAt p' c c' e
                ∧ root' = setType (setField root f c') t
  end.

(** *** The collaborators

    The pass calls into [wasm.h], [wasm-builder.h], [ast_utils.h],
    [ast/block-utils.h] and [ast/type-updating.h], none of which is part
    of the sources.  What they compute is a parameter of the pass.  Of
    the type updater the specification says that it "recomputes
    parent-chain types when a subtree is removed or retyped": each call
    the pass makes to it is recorded, and retypes the nodes above the
    one the call is about, to the types the updater chooses. *)

Inductive TypeUpdaterCall :=
| tuWalk (root : Expression)
| tuNoteReplacement (old new_ : Expression)
| tuNoteRecursiveRemoval (curr : Expression)
| tuMaybeUpdateTypeToUnreachable (curr : Expression).

Class Collaborators := {
  (** [Block::finalize(type_)]: the type a block with this name and list
      ends up with. *)
  Block_finalize : Name → list Expression → WasmType → WasmType;
  (** [If::finalize()]: the type an if with these children and this
      type ends up with. *)
  If_finalize : Expression → Expression → option Expression → WasmType
                → WasmType;
  (** [BlockUtils::simplifyToContentsWithPossibleTypeChange]. *)
  simplifyToContentsWithPossibleTypeChange : Expression → Expression;
  (** [TypeUpdater::maybeUpdateTypeToUnreachable]: the type the block is
      left with. *)
  maybeUpdateTypeToUnreachable : Name → list Expression → WasmType → WasmType;
  (** The type a call to the type updater leaves a node above with,
      given the calls made so far, this one last, the body at the time
      of the call, the pointer to the node the call is about, the
      pointer to the node above and that node as it stands. *)
  TypeUpdater_retype : list TypeUpdaterCall → Expression → Path → Path
                       → Expression → WasmType;
  (** [BreakSeeker::has]. *)
  BreakSeeker_has : Expression → Name → bool;
}.

(** *** The walker object *)

(** Modelled from the spec: the tasks of [Walker] in [wasm-traversal.h],
    which is not part of the sources: "a small task queue of scheduled
    operations (scan-subtree / run-hook)", each a function and the
    pointer it is to run on. *)
Inductive Task :=
| scan_task (currp : Path)
| doVisit (currp : Path)
| doVisitIf (currp : Path)
| doAfterIfCondition_task (currp : Path)
| doAfterIfElseTrue_task (currp : Path).

(** The fields of the pass, with those it inherits from the walker. *)
Record DeadCodeElimination := mkDCE {
  (** [func->body], the tree every pointer points into *)
  body : Expression;
  (** the walker's task stack, top first, and [replacep] *)
  stack : list Task;
  replacep : Path;
  (** the calls made to [typeUpdater], oldest first *)
  typeUpdater : list TypeUpdaterCall;
  reachable : bool;
  reachableBreaks : gset Name;
  (** top first *)
  ifStack : list bool;
}.

Definition set_body (self : DeadCodeElimination) (e : Expression) :=
  mkDCE e (stack self) (replacep self) (typeUpdater self) (reachable self)
        (reachableBreaks self) (ifStack self).
Definition set_stack (self : DeadCodeElimination) (k : list Task) :=
  mkDCE (body self) k (replacep self) (typeUpdater self) (reachable self)
        (reachableBreaks self) (ifStack self).
Definition set_replacep (self : DeadCodeElimination) (p : Path) :=
  mkDCE (body self) (stack self) p (typeUpdater self) (reachable self)
        (reachableBreaks self) (ifStack self).
Definition set_reachable (self : DeadCodeElimination) (b : bool) :=
  mkDCE (body self) (stack self) (replacep self) (typeUpdater self) b
        (reachableBreaks self) (ifStack self).
Definition set_reachableBreaks (self : DeadCodeElimination) (s : gset Name) :=
  mkDCE (body self) (stack self) (replacep self) (typeUpdater self)
        (reachable self) s (ifStack self).
Definition set_ifStack (self : DeadCodeElimination) (s : list bool) :=
  mkDCE (body self) (stack self) (replacep self) (typeUpdater self)
        (reachable self) (reachableBreaks self) s.

(** Modelled from the spec: [pushTask] and [getCurrent] of [Walker] in
    [wasm-traversal.h], which is not part of the sources. *)
Definition pushTask (self : DeadCodeElimination) (t : Task) :=
  set_stack self (t :: stack self).

Definition getCurrent (self : DeadCodeElimination) : option Expression :=
  getAt (body self) (replacep self).

(** A write through the [curr] pointer of the node being visited, which
    sits at [replacep]. *)
Definition mutateCurrent (self : DeadCodeElimination) (curr : Expression) :=
  set_body self (setAt (body self) (replacep self) curr).

Section Pass.
Context {collab : Collaborators}.

(** A call to [typeUpdater], about the node at [p]: the call is
    recorded, and the updater retypes the nodes above [p]. *)
Definition tell (self : DeadCodeElimination) (c : TypeUpdaterCall) (p : Path) :=
  let calls := typeUpdater self ++ [c] in
  mkDCE (retypeAncestors (TypeUpdater_retype calls (body self) p) [] p (body self))
        (stack self) (replacep self) calls
        (reachable self) (reachableBreaks self) (ifStack self).

(** [replaceCurrent]: the walker's own [replaceCurrent] stores the
    expression through [replacep]; then the type updater is told. *)
Definition replaceCurrent (self : DeadCodeElimination) (expression : Expression)
    : option DeadCodeElimination :=
  old ← getCurrent self;
  Some (tell (mutateCurrent self expression) (tuNoteReplacement old expression)
             (replacep self)).

Definition addBreak (self : DeadCodeElimination) (name : Name) :=
  if reachable self
  then set_reachableBreaks self ({[name]} ∪ reachableBreaks self)
  else self.

Definition isDead (child : option Expression) : bool :=
  match child with
  | Some c => bool_decide (typeOf c = unreachable)
  | None => false
  end.

Definition isUnreachable (child : Expression) : bool :=
  bool_decide (typeOf child = unreachable).

(** Modelled from the spec: [Builder::makeDrop] of [wasm-builder.h], which
    is not part of the sources; it produces [Drop{value}], a node without
    a result. *)
Definition makeDrop (value : Expression) : Expression := Drop value none.

Definition drop (toDrop : Expression) : Expression :=
  if bool_decide (typeOf toDrop = unreachable) then toDrop else makeDrop toDrop.

(** A block from [allocator.alloc<Block>()], its list filled in, after
    [finalize(type_)]. *)
Definition newBlock (list : list Expression) (type_ : WasmType) : Expression :=
  Block None list (Block_finalize None list type_).

(** [visitBreak]; the arguments are the fields of [curr]. *)
Definition visitBreak (self : DeadCodeElimination) (name : Name)
    (value condition : option Expression) (type : WasmType)
    : option DeadCodeElimination :=
  if isDead value then
    match value with
    | Some v => replaceCurrent self v
    | None => None
    end
  else if isDead condition then
    match condition, value with
    | Some c, Some v => replaceCurrent self (newBlock [drop v; c] type)
    | Some c, None => replaceCurrent self c
    | None, _ => None
    end
  else
    let self := addBreak self name in
    Some (if condition is Some _ then self else set_reachable self false).

Definition visitSwitch (self : DeadCodeElimination) (targets : list Name)
    (default_ : Name) (value : option Expression) (condition : Expression)
    (type : WasmType) : option DeadCodeElimination :=
  if isDead value then
    match value with
    | Some v => replaceCurrent self v
    | None => None
    end
  else if isUnreachable condition then
    match value with
    | Some v => replaceCurrent self (newBlock [drop v; condition] type)
    | None => replaceCurrent self condition
    end
  else
    let self := foldl addBreak self targets in
    let self := addBreak self default_ in
    Some (set_reachable self false).

Definition visitReturn (self : DeadCodeElimination) (value : option Expression)
    : option DeadCodeElimination :=
  if isDead value then
    match value with
    | Some v => replaceCurrent self v
    | None => None
    end
  else Some (set_reachable self false).

Definition visitUnreachable (self : DeadCodeElimination)
    : option DeadCodeElimination :=
  Some (set_reachable self false).

(** The loop of [visitBlock]: [i] runs while [i < list.size() - 1]; at
    the first element of type [unreachable] the list is resized to
    [i + 1] and the loop left.  [n] counts the iterations still to run.
    ([i] is a 32-bit [Index]; lists are shorter than that.) *)
Fixpoint shortenFrom (list_ : list Expression) (i : Index) (n : nat)
    : list Expression :=
  match n with
  | 0 => list_
  | S n' =>
      match list_ !! i with
      | Some x =>
          if bool_decide (typeOf x = unreachable) then take (i + 1) list_
          else shortenFrom list_ (i + 1) n'
      | None => list_
      end
  end.

Definition shorten (list_ : list Expression) : list Expression :=
  shortenFrom list_ 0 (length list_ - 1).

Definition visitBlock (self : DeadCodeElimination) (name : Name)
    (list_ : list Expression) (type : WasmType) : option DeadCodeElimination :=
  let list_ :=
    if negb (reachable self) && bool_decide (1 < length list_)
    then shorten list_ else list_ in
  let self := mutateCurrent self (Block name list_ type) in
  let self :=
    if Name_is name then
      let self :=
        set_reachable self
          (reachable self || bool_decide (name ∈ reachableBreaks self)) in
      set_reachableBreaks self (reachableBreaks self ∖ {[name]})
    else self in
  if bool_decide (length list_ = 1) && from_option isUnreachable false (list_ !! 0)
  then
    replaceCurrent self
      (simplifyToContentsWithPossibleTypeChange (Block name list_ type))
  else
    let self :=
      mutateCurrent self
        (Block name list_ (maybeUpdateTypeToUnreachable name list_ type)) in
    Some (tell self (tuMaybeUpdateTypeToUnreachable (Block name list_ type))
               (replacep self)).

Definition visitLoop (self : DeadCodeElimination) (name : Name)
    (body : Expression) (type : WasmType) : option DeadCodeElimination :=
  let self :=
    if Name_is name
    then set_reachableBreaks self (reachableBreaks self ∖ {[name]})
    else self in
  if isUnreachable body && negb (BreakSeeker_has body name)
  then replaceCurrent self body
  else Some self.

Definition doAfterIfCondition (self : DeadCodeElimination) (currp : Path)
    : option DeadCodeElimination :=
  Some (set_ifStack self (reachable self :: ifStack self)).

Definition doAfterIfElseTrue (self : DeadCodeElimination) (currp : Path)
    : option DeadCodeElimination :=
  curr ← getAt (body self) currp;
  match curr with
  | If _ _ (Some _) _ =>
      match ifStack self with
      | reachableBefore :: rest =>
          let self := set_ifStack self rest in
          let self := set_ifStack self (reachable self :: ifStack self) in
          Some (set_reachable self reachableBefore)
      | [] => None
      end
  | _ => None
  end.

(** [visitIf].  The final [curr->finalize()] writes through [curr]; once
    the condition has replaced the node that write is to a node no
    longer in the tree. *)
Definition visitIf (self : DeadCodeElimination) (condition ifTrue : Expression)
    (ifFalse : option Expression) (type : WasmType)
    : option DeadCodeElimination :=
  match ifStack self with
  | top :: rest =>
      let self := set_reachable self (reachable self || top) in
      let self := set_ifStack self rest in
      if isUnreachable condition then replaceCurrent self condition
      else
        Some (mutateCurrent self
                (If condition ifTrue ifFalse
                    (If_finalize condition ifTrue ifFalse type)))
  | [] => None
  end.

(** The loops of [handleCall].  [i] is the index the outer loop is at,
    [rest] the operands from [i] on; the inner loop fills the new block
    with [drop(curr->operands[j])] for [j < newSize].  The result is the
    expression passed to [replaceCurrent], if any. *)
Fixpoint handleCallFrom (operands : list Expression) (type : WasmType)
    (i : Index) (rest : list Expression) : option Expression :=
  match rest with
  | [] => None
  | operand :: rest' =>
      if isUnreachable operand then
        if bool_decide (0 < i) then
          let newSize := i + 1 in
          Some (newBlock (drop <$> take newSize operands) type)
        else Some operand
      else handleCallFrom operands type (i + 1) rest'
  end.

(** [handleCall]; the flag returned tells whether the result differs
    from [curr], that is, whether the node was replaced. *)
Definition handleCall (self : DeadCodeElimination) (operands : list Expression)
    (type : WasmType) : option (DeadCodeElimination * bool) :=
  match handleCallFrom operands type 0 operands with
  | Some replacement =>
      self ← replaceCurrent self replacement; Some (self, true)
  | None => Some (self, false)
  end.

Definition visitCall (self : DeadCodeElimination) (operands : list Expression)
    (type : WasmType) : option DeadCodeElimination :=
  fst <$> handleCall self operands type.

Definition visitCallImport (self : DeadCodeElimination)
    (operands : list Expression) (type : WasmType)
    : option DeadCodeElimination :=
  fst <$> handleCall self operands type.

Definition visitCallIndirect (self : DeadCodeElimination)
    (operands : list Expression) (target : Expression) (type : WasmType)
    : option DeadCodeElimination :=
  '(self, replaced) ← handleCall self operands type;
  if replaced : bool then Some self
  else if isUnreachable target
  then replaceCurrent self (newBlock ((drop <$> operands) ++ [target]) type)
  else Some self.

Definition visitSetLocal (self : DeadCodeElimination) (value : Expression)
    : option DeadCodeElimination :=
  if isUnreachable value then replaceCurrent self value else Some self.

Definition visitLoad (self : DeadCodeElimination) (ptr : Expression)
    : option DeadCodeElimination :=
  if isUnreachable ptr then replaceCurrent self ptr else Some self.

Definition visitStore (self : DeadCodeElimination) (ptr value : Expression)
    (type : WasmType) : option DeadCodeElimination :=
  if isUnreachable ptr then replaceCurrent self ptr
  else if isUnreachable value
  then replaceCurrent self (newBlock [drop ptr; value] type)
  else Some self.

Definition visitUnary (self : DeadCodeElimination) (value : Expression)
    : option DeadCodeElimination :=
  if isUnreachable value then replaceCurrent self value else Some self.

Definition visitBinary (self : DeadCodeElimination) (left_ right_ : Expression)
    (type : WasmType) : option DeadCodeElimination :=
  if isUnreachable left_ then replaceCurrent self left_
  else if isUnreachable right_
  then replaceCurrent self (newBlock [drop left_; right_] type)
  else Some self.

Definition visitSelect (self : DeadCodeElimination)
    (ifTrue ifFalse condition : Expression) (type : WasmType)
    : option DeadCodeElimination :=
  if isUnreachable ifTrue then replaceCurrent self ifTrue
  else if isUnreachable ifFalse
  then replaceCurrent self (newBlock [drop ifTrue; ifFalse] type)
  else if isUnreachable condition
  then replaceCurrent self (newBlock [drop ifTrue; drop ifFalse; condition] type)
  else Some self.

Definition visitDrop (self : DeadCodeElimination) (value : Expression)
    : option DeadCodeElimination :=
  if isUnreachable value then replaceCurrent self value else Some self.

Definition visitHost (self : DeadCodeElimination) (operands : list Expression)
    (type : WasmType) : option DeadCodeElimination :=
  fst <$> handleCall self operands type.

(** The dispatch of [Visitor::visit] on the node's id.  The pass has no
    visitor of its own for [SetGlobal], [GetLocal], [GetGlobal], [Const]
    and [Nop]: for them the default one runs, which does nothing. *)
Definition visit (self : DeadCodeElimination) (curr : Expression)
    : option DeadCodeElimination :=
  match curr with
  | Block name list type => visitBlock self name list type
  | If condition ifTrue ifFalse type => visitIf self condition ifTrue ifFalse type
  | Loop name body type => visitLoop self name body type
  | Break name value condition type => visitBreak self name value condition type
  | Switch targets default_ value condition type =>
      visitSwitch self targets default_ value condition type
  | Call _ operands type => visitCall self operands type
  | CallImport _ operands type => visitCallImport self operands type
  | CallIndirect operands target type =>
      visitCallIndirect self operands target type
  | SetLocal _ value _ => visitSetLocal self value
  | Load ptr _ => visitLoad self ptr
  | Store ptr value type => visitStore self ptr value type
  | Unary _ value _ => visitUnary self value
  | Binary _ left_ right_ type => visitBinary self left_ right_ type
  | Select ifTrue ifFalse condition type =>
      visitSelect self ifTrue ifFalse condition type
  | Drop value _ => visitDrop self value
  | Return value => visitReturn self value
  | Host _ operands type => visitHost self operands type
  | Unreachable => visitUnreachable self
  | SetGlobal _ _ _ | GetLocal _ _ | GetGlobal _ _ | Const _ _ | Nop => Some self
  end.

(** Modelled from the spec: [PostWalker::scan] of [wasm-traversal.h],
    which is not part of the sources; it "descends normally (post-order
    children-first) and then invokes the variant-specific visitor": the
    visit is pushed first, then the children last to first, so that
    they are popped in evaluation order. *)
Definition PostWalker_scan (self : DeadCodeElimination) (currp : Path)
    (curr : Expression) : DeadCodeElimination :=
  foldl (λ self f, pushTask self (scan_task (currp ++ [f])))
        (pushTask self (doVisit currp))
        (reverse (childFields curr)).

(** [scan].  [ExpressionManipulator::convert<_, Unreachable>] turns the
    node at [*currp] into an [Unreachable] where it stands. *)
Definition scan (self : DeadCodeElimination) (currp : Path)
    : option DeadCodeElimination :=
  curr ← getAt (body self) currp;
  if negb (reachable self) then
    match curr with
    | Unreachable => Some self
    | _ =>
        let self := tell self (tuNoteRecursiveRemoval curr) currp in
        Some (set_body self (setAt (body self) currp Unreachable))
    end
  else
    match curr with
    | If _ _ ifFalse _ =>
        let self := pushTask self (doVisitIf currp) in
        let self :=
          if ifFalse is Some _ then
            let self := pushTask self (scan_task (currp ++ [fIfFalse])) in
            pushTask self (doAfterIfElseTrue_task currp)
          else self in
        let self := pushTask self (scan_task (currp ++ [fIfTrue])) in
        let self := pushTask self (doAfterIfCondition_task currp) in
        Some (pushTask self (scan_task (currp ++ [fCondition])))
    | _ => Some (PostWalker_scan self currp curr)
    end.

(** Running a popped task: [task.func(self, task.currp)]. *)
Definition runTask (self : DeadCodeElimination) (task : Task)
    : option DeadCodeElimination :=
  match task with
  | scan_task currp => scan self currp
  | doVisit currp => curr ← getAt (body self) currp; visit self curr
  | doVisitIf currp =>
      curr ← getAt (body self) currp;
      match curr with
      | If condition ifTrue ifFalse type =>
          visitIf self condition ifTrue ifFalse type
      | _ => None
      end
  | doAfterIfCondition_task currp => doAfterIfCondition self currp
  | doAfterIfElseTrue_task currp => doAfterIfElseTrue self currp
  end.

Definition currpOf (task : Task) : Path :=
  match task with
  | scan_task p | doVisit p | doVisitIf p | doAfterIfCondition_task p
  | doAfterIfElseTrue_task p => p
  end.

(** Modelled from the spec: the loop of [Walker::walk] of
    [wasm-traversal.h], which is not part of the sources: pop a task,
    point [replacep] at its node, run it, until the stack is empty.
    [step] is one turn of the loop. *)
Definition step (self : DeadCodeElimination) : option DeadCodeElimination :=
  match stack self with
  | [] => None
  | task :: rest =>
      runTask (set_replacep (set_stack self rest) (currpOf task)) task
  end.

Inductive Outcome :=
| Done (self : DeadCodeElimination)
| Aborted
| OutOfFuel.

Fixpoint walkLoop (fuel : nat) (self : DeadCodeElimination) : Outcome :=
  match stack self with
  | [] => Done self
  | _ :: _ =>
      match fuel with
      | 0 => OutOfFuel
      | S fuel' =>
          match step self with
          | Some self' => walkLoop fuel' self'
          | None => Aborted
          end
      end
  end.

Fixpoint exec (n : nat) (self : DeadCodeElimination)
    : option DeadCodeElimination :=
  match n with
  | 0 => Some self
  | S n' => self' ← step self; exec n' self'
  end.

(** The number of nodes; no walk runs more than four tasks per node. *)
Fixpoint nodeCount (e : Expression) : nat :=
  let sizes := fix sizes (l : list Expression) : nat :=
    match l with [] => 0 | x :: l' => nodeCount x + sizes l' end in
  let osize := λ o : option Expression,
    match o with Some x => nodeCount x | None => 0 end in
  S match e with
    | Block _ l _ | Call _ l _ | CallImport _ l _ | Host _ l _ => sizes l
    | CallIndirect l t _ => sizes l + nodeCount t
    | If c t f _ => nodeCount c + nodeCount t + osize f
    | Loop _ b _ => nodeCount b
    | Break _ v c _ => osize v + osize c
    | Switch _ _ v c _ => osize v + nodeCount c
    | SetLocal _ v _ | SetGlobal _ v _ | Unary _ v _ | Drop v _ | Load v _ =>
        nodeCount v
    | Store a b _ | Binary _ a b _ => nodeCount a + nodeCount b
    | Select a b c _ => nodeCount a + nodeCount b + nodeCount c
    | Return v => osize v
    | GetLocal _ _ | GetGlobal _ _ | Const _ _ | Nop | Unreachable => 0
    end.

(** A fresh instance, as [create()] returns it, given the function it
    is to run on; [reachable] is set by [doWalkFunction] only. *)
Definition create (func_body : Expression) : DeadCodeElimination :=
  mkDCE func_body [] [] [] false ∅ [].

(** The walker as the loop of [walk(func->body)] finds it at its first
    turn: [reachable] set, the type updater walked over the body, the
    scan of the body pushed. *)
Definition enterWalk (self : DeadCodeElimination) : DeadCodeElimination :=
  let self := set_reachable self true in
  let self := tell self (tuWalk (body self)) [] in
  pushTask self (scan_task []).

(** [doWalkFunction]; four tasks per node are fuel enough. *)
Definition doWalkFunction (self : DeadCodeElimination) : Outcome :=
  walkLoop (4 * nodeCount (body self)) (enterWalk self).

Definition visitFunction (self : DeadCodeElimination) : Outcome :=
  if bool_decide (size (reachableBreaks self) = 0) then Done self else Aborted.

(** Running the pass on a function: [doWalkFunction], then
    [visitFunction]. *)
Definition walkFunction (func_body : Expression) : Outcome :=
  match doWalkFunction (create func_body) with
  | Done self => visitFunction self
  | o => o
  end.

End Pass.

(** *** The walk of one subtree

    What the task loop does between popping the scan of a node and
    emptying the stack back to where it was, told node by node.  The
    walker's own fields, without the tree and the task stack: *)

Record Flags := mkFlags {
  fl_typeUpdater : list TypeUpdaterCall;
  fl_reachable : bool;
  fl_reachableBreaks : gset Name;
  fl_ifStack : list bool;
}.

Definition flagsOf (self : DeadCodeElimination) : Flags :=
  mkFlags (typeUpdater self) (reachable self) (reachableBreaks self)
          (ifStack self).

(** A walker whose tree is the node [e] alone, pointed at by
    [replacep]. *)
Definition onNode (e : Expression) (fl : Flags) : DeadCodeElimination :=
  mkDCE e [] [] (fl_typeUpdater fl) (fl_reachable fl) (fl_reachableBreaks fl)
        (fl_ifStack fl).

(** The same walker with the tree [root] around the node, at [p], and
    the tasks [k] pending. *)
Definition inTree (root : Expression) (p : Path) (k : list Task)
    (loc : DeadCodeElimination) : DeadCodeElimination :=
  mkDCE (setAt root p (body loc)) k p (typeUpdater loc) (reachable loc)
        (reachableBreaks loc) (ifStack loc).

Section Walk.
Context {collab : Collaborators}.

Definition visitNode (e : Expression) (fl : Flags)
    : option (Expression * Flags) :=
  self ← visit (onNode e fl) e;
  Some (body self, flagsOf self).

Definition killNode (e : Expression) (fl : Flags) : Expression * Flags :=
  match e with
  | Unreachable => (e, fl)
  | _ =>
      (Unreachable,
       mkFlags (fl_typeUpdater fl ++ [tuNoteRecursiveRemoval e])
               (fl_reachable fl) (fl_reachableBreaks fl) (fl_ifStack fl))
  end.

Definition afterIfCondition (fl : Flags) : Flags :=
  mkFlags (fl_typeUpdater fl) (fl_reachable fl) (fl_reachableBreaks fl)
          (fl_reachable fl :: fl_ifStack fl).

Definition afterIfElseTrue (fl : Flags) : option Flags :=
  match fl_ifStack fl with
  | reachableBefore :: rest =>
      Some (mkFlags (fl_typeUpdater fl) reachableBefore (fl_reachableBreaks fl)
                    (fl_reachable fl :: rest))
  | [] => None
  end.

Definition isIf (e : Expression) : bool :=
  match e with If _ _ _ _ => true | _ => false end.

(** [Walk n e fl e' fl']: started on the node [e] with the fields [fl],
    the walk runs [n] tasks and leaves [e'] in the node's place and the
    fields [fl'].  [WalkFields] walks the children held by a list of
    fields, one after the other.  While the children of a node are
    walked the type updater may retype the node, which is above them:
    the visitor finds it with a type [ty'] of the updater's choice. *)
Inductive Walk : nat → Expression → Flags → Expression → Flags → Prop :=
| Walk_dead e fl :
    fl_reachable fl = false →
    Walk 1 e fl (killNode e fl).1 (killNode e fl).2
| Walk_node n e fl e1 fl1 ty' e2 fl2 :
    fl_reachable fl = true →
    isIf e = false →
    WalkFields n e (childFields e) fl e1 fl1 →
    visitNode (setType e1 ty') fl1 = Some (e2, fl2) →
    Walk (S (n + 1)) e fl e2 fl2
| Walk_If n1 n2 c t ty fl c' fl1 t' fl2 ty' e2 fl3 :
    fl_reachable fl = true →
    Walk n1 c fl c' fl1 →
    Walk n2 t (afterIfCondition fl1) t' fl2 →
    visitNode (If c' t' None ty') fl2 = Some (e2, fl3) →
    Walk (S (n1 + S (n2 + 1))) (If c t None ty) fl e2 fl3
| Walk_IfElse n1 n2 n3 c t f ty fl c' fl1 t' fl2 fl2' f' fl3 ty' e2 fl4 :
    fl_reachable fl = true →
    Walk n1 c fl c' fl1 →
    Walk n2 t (afterIfCondition fl1) t' fl2 →
    afterIfElseTrue fl2 = Some fl2' →
    Walk n3 f fl2' f' fl3 →
    visitNode (If c' t' (Some f') ty') fl3 = Some (e2, fl4) →
    Walk (S (n1 + S (n2 + S (n3 + 1)))) (If c t (Some f) ty) fl e2 fl4
with WalkFields
    : nat → Expression → list Field → Flags → Expression → Flags → Prop :=
| WalkFields_nil e fl : WalkFields 0 e [] fl e fl
| WalkFields_cons n m e f fs fl c c' fl1 e2 fl2 :
    getField e f = Some c →
    Walk n c fl c' fl1 →
    WalkFields m (setField e f c') fs fl1 e2 fl2 →
    WalkFields (n + m) e (f :: fs) fl e2 fl2.

Scheme Walk_mut := Induction for Walk Sort Prop
  with WalkFields_mut := Induction for WalkFields Sort Prop.

End Walk.

(** *** Well-formed bodies *)

(** Every [Break] and [Switch] names the label of a [Block] or [Loop]
    around it; [env] holds the labels in scope. *)
Definition bindLabel (name : Name) (env : list Name) : list Name :=
  if Name_is name then name :: env else env.

Definition ownTargets (e : Expression) : list Name :=
  match e with
  | Break name _ _ _ => [name]
  | Switch targets default_ _ _ _ => targets ++ [default_]
  | _ => []
  end.

Definition ownLabel (e : Expression) : Name :=
  match e with
  | Block name _ _ | Loop name _ _ => name
  | _ => None
  end.

Fixpoint scoped (env : list Name) (e : Expression) : bool :=
  let env' := bindLabel (ownLabel e) env in
  let all := fix all (l : list Expression) : bool :=
    match l with [] => true | x :: l' => scoped env' x && all l' end in
  let opt := λ o : option Expression,
    match o with Some x => scoped env' x | None => true end in
  forallb (λ n, bool_decide (n ∈ env)) (ownTargets e) &&
  match e with
  | Block _ l _ | Call _ l _ | CallImport _ l _ | Host _ l _ => all l
  | CallIndirect l t _ => all l && scoped env' t
  | If c t f _ => scoped env' c && scoped env' t && opt f
  | Loop _ b _ => scoped env' b
  | Break _ v c _ => opt v && opt c
  | Switch _ _ v c _ => opt v && scoped env' c
  | SetLocal _ v _ | SetGlobal _ v _ | Unary _ v _ | Drop v _ | Load v _ =>
      scoped env' v
  | Store a b _ | Binary _ a b _ => scoped env' a && scoped env' b
  | Select a b c _ => scoped env' a && scoped env' b && scoped env' c
  | Return v => opt v
  | GetLocal _ _ | GetGlobal _ _ | Const _ _ | Nop | Unreachable => true
  end.

Definition wellFormed (func_body : Expression) : bool := scoped [] func_body.

(** *** The rewrites, in the words of the specification *)

(** "truncate the list at (and including) the first element with type
    unreachable" *)
Fixpoint truncateAtFirstUnreachable (l : list Expression) : list Expression :=
  match l with
  | [] => []
  | x :: l' =>
      if bool_decide (typeOf x = unreachable) then [x]
      else x :: truncateAtFirstUnreachable l'
  end.

(** The index of the first operand of type unreachable. *)
Fixpoint firstUnreachable (l : list Expression) : option Index :=
  match l with
  | [] => None
  | x :: l' =>
      if bool_decide (typeOf x = unreachable) then Some 0
      else S <$> firstUnreachable l'
  end.

Section Rewrites.
Context {collab : Collaborators}.

(** The evaluation-order rule over a list of operands: with the first
    operand of type unreachable at index [k], the node gives way to that
    operand when [k = 0], and otherwise to a block of the operands before
    it, dropped, followed by it; [None] when no operand is of type
    unreachable. *)
Definition evaluationOrderRule (operands : list Expression) (type : WasmType)
    : option Expression :=
  k ← firstUnreachable operands;
  dead ← operands !! k;
  Some (if bool_decide (k = 0) then dead
        else newBlock ((drop <$> take k operands) ++ [dead]) type).

End Rewrites.

(** *** The collaborators as the specification describes them *)

Fixpoint anyNode (P : Expression → bool) (e : Expression) : bool :=
  let any := fix any (l : list Expression) : bool :=
    match l with [] => false | x :: l' => anyNode P x || any l' end in
  let opt := λ o : option Expression,
    match o with Some x => anyNode P x | None => false end in
  P e ||
  match e with
  | Block _ l _ | Call _ l _ | CallImport _ l _ | Host _ l _ => any l
  | CallIndirect l t _ => any l || anyNode P t
  | If c t f _ => anyNode P c || anyNode P t || opt f
  | Loop _ b _ => anyNode P b
  | Break _ v c _ => opt v || opt c
  | Switch _ _ v c _ => opt v || anyNode P c
  | SetLocal _ v _ | SetGlobal _ v _ | Unary _ v _ | Drop v _ | Load v _ =>
      anyNode P v
  | Store a b _ | Binary _ a b _ => anyNode P a || anyNode P b
  | Select a b c _ => anyNode P a || anyNode P b || anyNode P c
  | Return v => opt v
  | GetLocal _ _ | GetGlobal _ _ | Const _ _ | Nop | Unreachable => false
  end.

(** Modelled from the spec: [BreakSeeker::has] of [ast_utils.h], which is
    not part of the sources: a "structural scan for any Break or Switch
    targeting label within subtree". *)
Definition specBreakSeeker_has (tree : Expression) (target : Name) : bool :=
  anyNode (λ e, bool_decide (target ∈ ownTargets e)) tree.

(** Modelled from the spec: [Block::finalize(type_)] of [wasm.h], which
    is not part of the sources: the block is "finalized to the original
    node's result type", "typed to the break's type". *)
Definition specBlock_finalize (name : Name) (list_ : list Expression)
    (type_ : WasmType) : WasmType := type_.

(** Modelled from the spec: [If::finalize()] of [wasm.h], which is not
    part of the sources: "re-finalize the node's type (it may become
    unreachable if both arms do)". *)
Definition specIf_finalize (condition ifTrue : Expression)
    (ifFalse : option Expression) (type : WasmType) : WasmType :=
  match ifFalse with
  | Some ifFalse =>
      if bool_decide (typeOf ifTrue = unreachable)
         && bool_decide (typeOf ifFalse = unreachable)
      then unreachable else type
  | None => type
  end.

(** Modelled from the spec:
    [BlockUtils::simplifyToContentsWithPossibleTypeChange] of
    [ast/block-utils.h], which is not part of the sources: "given a block
    whose single child is unreachable, return a replacement expression
    (the child itself ...)"; a block that a break of its child still
    targets is kept, as in "(block $b (br $b))". *)
Definition specSimplifyToContents (block : Expression) : Expression :=
  match block with
  | Block name [child] _ =>
      if specBreakSeeker_has child name then block else child
  | _ => block
  end.

(** Modelled from the spec: [TypeUpdater::maybeUpdateTypeToUnreachable]
    of [ast/type-updating.h], which is not part of the sources:
    "recompute container's declared type given child types"; the block
    becomes [unreachable] when it "now ends unreachable" and no break
    brings a value to its label. *)
Definition specMaybeUpdateTypeToUnreachable (name : Name)
    (list_ : list Expression) (type : WasmType) : WasmType :=
  match last list_ with
  | Some x =>
      if bool_decide (typeOf x = unreachable)
         && negb (existsb (λ y, specBreakSeeker_has y name) list_)
      then unreachable else type
  | None => type
  end.

(** Modelled from the spec: the type propagation of [TypeUpdater] in
    [ast/type-updating.h], which is not part of the sources.  It
    "recomputes parent-chain types when a subtree is removed or
    retyped": "a subtree of type unreachable may replace a subtree of
    any type; the type updater must propagate this fact upward to
    parents that then become unreachable if their result depends on
    it".  The node a call is about has become unreachable when it
    replaces a node that was not, when it is removed, or when the block
    has just been retyped. *)
Definition specBecameUnreachable (calls : list TypeUpdaterCall)
    (node : Expression) : bool :=
  match last calls with
  | Some (tuNoteReplacement old new_) =>
      isUnreachable new_ && negb (isUnreachable old)
  | Some (tuNoteRecursiveRemoval curr) => negb (isUnreachable curr)
  | Some (tuMaybeUpdateTypeToUnreachable curr) =>
      isUnreachable node && negb (isUnreachable curr)
  | _ => false
  end.

Definition isRemoval (calls : list TypeUpdaterCall) : bool :=
  match last calls with
  | Some (tuNoteRecursiveRemoval _) => true
  | _ => false
  end.

(** Whether the result of a node depends on the child in field [f]: that
    of a block on its last element, unless a break brings a value to
    its label; that of an if on its condition, and on an arm when the
    other arm is unreachable; that of any other node on each of its
    operands.  [removed] tells that the child is being removed, its
    breaks with it. *)
Definition specDependsOn (removed : bool) (node : Expression) (f : Field) : bool :=
  match node, f with
  | Block name list_ _, fList i =>
      bool_decide (i + 1 = length list_) &&
      negb (existsb (λ y, specBreakSeeker_has y name)
              (if removed then <[i:=Unreachable]> list_ else list_))
  | If _ _ _ _, fCondition => true
  | If _ _ (Some ifFalse) _, fIfTrue => isUnreachable ifFalse
  | If _ ifTrue (Some _) _, fIfFalse => isUnreachable ifTrue
  | If _ _ _ _, _ => false
  | _, _ => true
  end.

Definition specTypeUpdater_retype (calls : list TypeUpdaterCall)
    (root : Expression) (p above : Path) (node : Expression) : WasmType :=
  match p !! length above with
  | Some f =>
      match getField node f with
      | Some child =>
          let lowest := bool_decide (length above + 1 = length p) in
          let became :=
            if lowest then specBecameUnreachable calls child
            else isUnreachable child
                 && negb (from_option isUnreachable true (getAt root (above ++ [f]))) in
          if became && specDependsOn (lowest && isRemoval calls) node f
          then unreachable else typeOf node
      | None => typeOf node
      end
  | None => typeOf node
  end.

Definition specCollaborators : Collaborators := {|
  Block_finalize := specBlock_finalize;
  If_finalize := specIf_finalize;
  simplifyToContentsWithPossibleTypeChange := specSimplifyToContents;
  maybeUpdateTypeToUnreachable := specMaybeUpdateTypeToUnreachable;
  TypeUpdater_retype := specTypeUpdater_retype;
  BreakSeeker_has := specBreakSeeker_has;
|}.

(** The body the pass leaves, with the collaborators of the
    specification. *)
Definition runPass (func_body : Expression) : option Expression :=
  match walkFunction (collab := specCollaborators) func_body with
  | Done self => Some (body self)
  | _ => None
  end.

(** *** Settled bodies

    A body is settled when a walk finds nothing in it to rewrite: every
    node met while [reachable] is false is an [Unreachable] already, no
    visitor finds an operand of type unreachable to put in the place of
    its node, no block has a list to cut, a single element of type
    unreachable to give way to, or a type to lose, no loop gives way to
    its body, and no [If] to its condition or to another type.
    [settledFrom e st] follows [reachable] and [reachableBreaks], the
    pair [st], through the node [e], and is [None] where a rewrite is
    found. *)

Abbreviation Reach := (bool * gset Name)%type.

Definition noneUnreachable (operands : list Expression) : bool :=
  if firstUnreachable operands is Some _ then false else true.

Definition settledIf (condition ifTrue : Expression)
    (ifFalse : option Expression) (type : WasmType) : bool :=
  negb (isUnreachable condition)
  && bool_decide (specIf_finalize condition ifTrue ifFalse type = type).

Definition settledBlock (reachable : bool) (name : Name)
    (list_ : list Expression) (type : WasmType) : bool :=
  (reachable || bool_decide (length list_ ≤ 1)
   || bool_decide (length (truncateAtFirstUnreachable list_) = length list_))
  && match list_ with
     | [child] =>
         if isUnreachable child then specBreakSeeker_has child name
         else bool_decide (specMaybeUpdateTypeToUnreachable name list_ type = type)
     | _ => bool_decide (specMaybeUpdateTypeToUnreachable name list_ type = type)
     end.

(** The visitor of a node other than an [If], its children settled:
    what it leaves of [reachable] and [reachableBreaks], if it leaves
    the node as it is. *)
Definition settledVisit (e : Expression) (st : Reach) : option Reach :=
  let reachable := st.1 in
  let breaks := st.2 in
  let quiet := λ (ok : bool) (st' : Reach), if ok then Some st' else None in
  match e with
  | Block name list_ type =>
      quiet (settledBlock reachable name list_ type)
        (if Name_is name
         then (reachable || bool_decide (name ∈ breaks), breaks ∖ {[name]})
         else st)
  | Loop name body_ _ =>
      quiet (negb (isUnreachable body_ && negb (specBreakSeeker_has body_ name)))
        (reachable, if Name_is name then breaks ∖ {[name]} else breaks)
  | Break name value condition _ =>
      quiet (negb (isDead value) && negb (isDead condition))
        (if condition is Some _ then reachable else false,
         if reachable then {[name]} ∪ breaks else breaks)
  | Switch targets default_ value condition _ =>
      quiet (negb (isDead value) && negb (isUnreachable condition))
        (false,
         if reachable then {[default_]} ∪ (list_to_set targets ∪ breaks)
         else breaks)
  | Return value => quiet (negb (isDead value)) (false, breaks)
  | Unreachable => Some (false, breaks)
  | Call _ operands _ | CallImport _ operands _ | Host _ operands _ =>
      quiet (noneUnreachable operands) st
  | CallIndirect operands target _ =>
      quiet (noneUnreachable operands && negb (isUnreachable target)) st
  | SetLocal _ value _ | Unary _ value _ | Drop value _ | Load value _ =>
      quiet (negb (isUnreachable value)) st
  | Store a b _ | Binary _ a b _ =>
      quiet (negb (isUnreachable a) && negb (isUnreachable b)) st
  | Select a b c _ =>
      quiet (negb (isUnreachable a) && negb (isUnreachable b)
             && negb (isUnreachable c)) st
  | If _ _ _ _ | SetGlobal _ _ _ | GetLocal _ _ | GetGlobal _ _ | Const _ _
  | Nop => Some st
  end.

Fixpoint settledFrom (e : Expression) (st : Reach) : option Reach :=
  let all := fix all (l : list Expression) (st : Reach) : option Reach :=
    match l with
    | [] => Some st
    | x :: l' => st' ← settledFrom x st; all l' st'
    end in
  let opt := λ (o : option Expression) (st : Reach),
    match o with Some x => settledFrom x st | None => Some st end in
  if negb st.1 then
    match e with Unreachable => Some st | _ => None end
  else
    match e with
    | If condition ifTrue ifFalse type =>
        st1 ← settledFrom condition st;
        st2 ← settledFrom ifTrue st1;
        st3 ← match ifFalse with
              | Some ifFalse =>
                  st3 ← settledFrom ifFalse (st1.1, st2.2);
                  Some (st3.1 || st2.1, st3.2)
              | None => Some (st2.1 || st1.1, st2.2)
              end;
        if settledIf condition ifTrue ifFalse type then Some st3 else None
    | Block _ l _ | Call _ l _ | CallImport _ l _ | Host _ l _ =>
        st1 ← all l st; settledVisit e st1
    | CallIndirect l t _ =>
        st1 ← all l st; st2 ← settledFrom t st1; settledVisit e st2
    | Loop _ b _ => st1 ← settledFrom b st; settledVisit e st1
    | Break _ v c _ => st1 ← opt v st; st2 ← opt c st1; settledVisit e st2
    | Switch _ _ v c _ =>
        st1 ← opt v st; st2 ← settledFrom c st1; settledVisit e st2
    | SetLocal _ v _ | SetGlobal _ v _ | Unary _ v _ | Drop v _ | Load v _ =>
        st1 ← settledFrom v st; settledVisit e st1
    | Store a b _ | Binary _ a b _ =>
        st1 ← settledFrom a st; st2 ← settledFrom b st1; settledVisit e st2
    | Select a b c _ =>
        st1 ← settledFrom a st; st2 ← settledFrom b st1;
        st3 ← settledFrom c st2; settledVisit e st3
    | Return v => st1 ← opt v st; settledVisit e st1
    | GetLocal _ _ | GetGlobal _ _ | Const _ _ | Nop | Unreachable =>
        settledVisit e st
    end.

(** A settled function body: the walk starts reachable, and ends with
    no label left in [reachableBreaks]. *)
Definition settled (func_body : Expression) : bool :=
  match settledFrom func_body (true, ∅) with
  | Some (_, breaks) => bool_decide (size breaks = 0)
  | None => false
  end.

(** *** Notions used in the further properties *)

Section MoreRewrites.
Context {collab : Collaborators}.

(** A visitor that follows the evaluation-order rule over [operands]:
    it replaces the node by what the rule gives, if anything. *)
Definition followRule (self : DeadCodeElimination) (operands : list Expression)
    (type : WasmType) : option DeadCodeElimination :=
  match evaluationOrderRule operands type with
  | Some replacement => replaceCurrent self replacement
  | None => Some self
  end.

(** The break seeker is sound for scoping: a tree in which it finds no
    break to a label is well scoped without that label. *)
Definition seekerSound : Prop :=
  ∀ tree name env,
    BreakSeeker_has tree name = false →
    scoped (bindLabel name env) tree = true → scoped env tree = true.

(** The simplify-to-contents helper returns a well-scoped expression for
    a well-scoped block. *)
Definition simplifyKeepsScope : Prop :=
  ∀ env block,
    scoped env block = true →
    scoped env (simplifyToContentsWithPossibleTypeChange block) = true.

End MoreRewrites.

(** The operands a node holds, those that are present. *)
Definition present (o : option Expression) : list Expression :=
  match o with Some x => [x] | None => [] end.

(** Two walkers with the same [reachable], [reachableBreaks] and
    [ifStack]. *)
Definition sameFlags (self self' : DeadCodeElimination) : Prop :=
  reachable self' = reachable self ∧
  reachableBreaks self' = reachableBreaks self ∧
  ifStack self' = ifStack self.

(** Two pointers that part ways: after a common stretch they go into
    different fields. *)
Definition partWays (p q : Path) : Prop :=
  ∃ common f g p' q', p = common ++ f :: p' ∧ q = common ++ g :: q' ∧ f ≠ g.

(** A visitor that has written through [replacep] only: every pointer
    that parts ways with [replacep] holds what it held, and the task
    stack and [replacep] are as they were. *)
Definition elsewhereUnchanged (self self' : DeadCodeElimination) : Prop :=
  (∀ q, partWays (replacep self) q →
        getAt (body self') q = getAt (body self) q) ∧
  stack self' = stack self ∧ replacep self' = replacep self.

(** The outcome [out] of a visitor run on the node [curr] that
    [replacep] points at follows the evaluation-order rule over
    [operands]: with no operand of type unreachable the walker is left
    as it is; with the first one at index [k], the node is replaced in
    the tree by that operand when [k = 0], and otherwise by a block,
    finalized to [type], of [k + 1] elements: the operands before it,
    each in a [Drop], then the dead operand; nothing else in the tree
    changes, the flags stay, and the type updater is told of the
    replacement. *)
Definition rewrittenByRule `{Collaborators} (self : DeadCodeElimination)
    (curr : Expression) (operands : list Expression) (type : WasmType)
    (out : option DeadCodeElimination) : Prop :=
  match firstUnreachable operands with
  | None => out = Some self
  | Some k =>
      ∃ dead self',
        operands !! k = Some dead ∧ typeOf dead = unreachable ∧
        (∀ j x, (j < k)%nat → operands !! j = Some x → typeOf x ≠ unreachable) ∧
        let list_ := (makeDrop <$> take k operands) ++ [dead] in
        let replacement :=
          if bool_decide (k = 0%nat) then dead
          else Block None list_ (Block_finalize None list_ type) in
        length list_ = (k + 1)%nat ∧
        out = Some self' ∧
        getCurrent self' = Some replacement ∧
        elsewhereUnchanged self self' ∧ sameFlags self self' ∧
        typeUpdater self'
        = typeUpdater self ++ [tuNoteReplacement curr replacement]
  end.

(** *** Notions used in the proofs, and the bodies of the examples *)

#[local] Open Scope string_scope.

(** A walker given by its tree, its pending tasks and its fields. *)
Definition machine (root : Expression) (k : list Task) (rp : Path) (fl : Flags)
    : DeadCodeElimination :=
  mkDCE root k rp (fl_typeUpdater fl) (fl_reachable fl) (fl_reachableBreaks fl)
        (fl_ifStack fl).

Definition scanTasks (p : Path) (fs : list Field) : list Task :=
  (λ f, scan_task (p ++ [f])) <$> fs.

Definition elseTasks (p : Path) (ifFalse : option Expression) : list Task :=
  match ifFalse with
  | Some _ => [doAfterIfElseTrue_task p; scan_task (p ++ [fIfFalse])]
  | None => []
  end.

Definition childCount (e : Expression) (fs : list Field) : nat :=
  sum_list_with (λ f, from_option nodeCount 0 (getField e f)) fs.

Definition startFlags (func_body : Expression) : Flags :=
  mkFlags [tuWalk func_body] true ∅ [].

(** The walk of a subtree, on the task loop: with the scan of a node on
    top of the stack the loop runs the tasks of a walk of that node, at
    most four for each node of the subtree, and is left with the rest
    of the stack; the node's place is taken by what the walk leaves
    there, and nothing else has changed but the types of the nodes
    above. *)
Definition walksSubtree `{Collaborators} (e : Expression) : Prop :=
  ∀ root p k rp fl, getAt root p = Some e →
  ∃ n e' fl' rp' root',
    Walk n e fl e' fl' ∧
    exec n (machine root (scan_task p :: k) rp fl)
    = Some (machine root' k rp' fl') ∧
    placedAt p root root' e' ∧
    (n ≤ 4 * nodeCount e)%nat ∧ fl_ifStack fl' = fl_ifStack fl.





Definition call_f : Expression := Call (Some "f") [] i32.

(** [(if (unreachable) (nop))] *)
Definition if_dead_condition : Expression := If Unreachable Nop None none.

(** [(loop $l (result i32) (block (br_if $l (i32.const 1)) (unreachable)))]:
    a loop that stays, of type [i32], after which nothing is reachable. *)
Definition endless_loop : Expression :=
  Loop (Some "l")
    (Block None [Break (Some "l") None (Some (Const 1 i32)) none; Unreachable]
       unreachable)
    i32.

(** [(block $out (result i32) (br $out (loop ...)))] *)
Definition break_after_loop : Expression :=
  Block (Some "out") [Break (Some "out") (Some endless_loop) None unreachable] i32.

(** [(i32.add (call $f) (unreachable))] *)
Definition add_dead_right : Expression := Binary 0 call_f Unreachable i32.

(** [(if (i32.const 1) (return))] *)
Definition if_return : Expression := If (Const 1 i32) (Return None) None none.

(** A dead [nop] in a block, about to be scanned. *)
Definition dead_nop : DeadCodeElimination :=
  mkDCE (Block None [Return None; Nop] none) [doVisit []] [fList 1] []
        false ∅ [].

(** [(block $b (return) (nop))] at its visit, after the return. *)
Definition block_after_return : DeadCodeElimination :=
  mkDCE (Block (Some "b") [Return None; Unreachable] none) [] [] []
        false ∅ [].

(** A walker about to visit the body [e], whose children have left
    [reachable] false. *)
Definition atVisit (e : Expression) : DeadCodeElimination :=
  mkDCE e [] [] [] false ∅ [].

(** [(call $g (call $f) (unreachable))] *)
Definition call_dead_operand : Expression :=
  Call (Some "g") [call_f; Unreachable] i32.

(** [(loop $L (unreachable))] *)
Definition loop_unreachable : Expression := Loop (Some "L") Unreachable none.

(** [(block $b (br $b) (call $f))] *)
Definition block_break_call : Expression :=
  Block (Some "b") [Break (Some "b") None None unreachable; call_f] none.

(** [(i32.add (unreachable) (call $f))] *)
Definition add_dead_left : Expression := Binary 0 Unreachable call_f i32.

(** [(br $b (unreachable))] *)
Definition break_dead_value : Expression :=
  Break (Some "b") (Some Unreachable) None unreachable.

(** [(call_indirect (unreachable))], a call without operands whose
    target is dead. *)
Definition call_indirect_dead_target : Expression :=
  CallIndirect [] Unreachable i32.

(** [(block $b (br $b) (nop))] as its visitor finds it: the break has
    been recorded, the [nop] after it replaced. *)
Definition block_of_break : Expression :=
  Block (Some "b") [Break (Some "b") None None unreachable; Unreachable] none.

Definition block_after_break : DeadCodeElimination :=
  mkDCE block_of_break [] [] [] false {[Some "b"]} [].

(** [(block (return) (nop))] with the scan of the dead [nop] on top of
    the stack. *)
Definition dead_nop_pending : DeadCodeElimination :=
  mkDCE (Block None [Return None; Nop] none)
        [scan_task [fList 1]; doVisit []] [fList 0] [] false ∅ [].

End DCE.

(** * Properties *)

(** ** Module I/O *)

Module WasmIOFacts.
Import WasmIO.

Open Scope string_scope.

Lemma rfind_None c s : rfind c s = None ↔ hasChar c s = false.
Proof.
  induction s as [|a s IH]; simpl; [done|].
  destruct (rfind c s) as [i|].
  - split; [done|]. intros H. apply orb_false_iff in H as [_ H].
    apply IH in H. done.
  - destruct (Ascii.eqb a c); simpl; [done|]. tauto.
Qed.

Lemma rfind_Some c s i :
  rfind c s = Some i →
  ∃ stem rest, s = stem +:+ String c rest ∧ String.length stem = i
               ∧ hasChar c rest = false.
Proof.
  revert i. induction s as [|a s IH]; simpl; intros i; [done|].
  destruct (rfind c s) as [j|] eqn:Hj.
  - intros [= <-]. destruct (IH j eq_refl) as (stem & rest & -> & <- & Hr).
    exists (String a stem), rest. done.
  - destruct (Ascii.eqb a c) eqn:Hac; [|done]. intros [= <-].
    apply Ascii.eqb_eq in Hac as ->.
    exists "", s. split_and!; [done..|]. by apply rfind_None.
Qed.

Lemma substr_app stem c rest :
  substr (String.length stem + 1) (stem +:+ String c rest) = Some rest.
Proof. induction stem as [|a stem IH]; simpl; [done|]. exact IH. Qed.

(** [getSuffix] never throws, and returns the text after the last dot. *)
Lemma getSuffix_spec filename :
  ∃ suffix, getSuffix filename = Some suffix ∧ isSuffixOf filename suffix.
Proof.
  unfold getSuffix. destruct (rfind "." filename) as [i|] eqn:Hi.
  - destruct (rfind_Some _ _ _ Hi) as (stem & rest & -> & <- & Hr).
    exists rest. split; [apply substr_app|]. right. by exists stem.
  - exists "". split; [done|]. left. split; [by apply rfind_None|done].
Qed.

Lemma hasChar_app c s t : hasChar c (s +:+ t) = hasChar c s || hasChar c t.
Proof.
  induction s as [|a s IH]; simpl; [done|]. by rewrite IH, orb_assoc.
Qed.

Lemma app_dot_inj stem1 stem2 suf1 suf2 :
  hasChar "." suf1 = false → hasChar "." suf2 = false →
  stem1 +:+ String "." suf1 = stem2 +:+ String "." suf2 → suf1 = suf2.
Proof.
  revert stem2. induction stem1 as [|a stem1 IH]; intros [|b stem2] H1 H2; simpl.
  - by intros [= ->].
  - intros [= <- ->]. rewrite hasChar_app in H1. simpl in H1.
    by rewrite orb_true_r in H1.
  - intros [= -> <-]. rewrite hasChar_app in H2. simpl in H2.
    by rewrite orb_true_r in H2.
  - intros [= <- Heq]. by apply (IH stem2).
Qed.

(** The relation [isSuffixOf] determines the suffix. *)
Lemma isSuffixOf_fun filename suf1 suf2 :
  isSuffixOf filename suf1 → isSuffixOf filename suf2 → suf1 = suf2.
Proof.
  intros [[H1 ->]|(stem1 & -> & H1)] [[H2 ->]|(stem2 & E2 & H2)]; [done|..].
  - rewrite E2, hasChar_app in H1. simpl in H1. by rewrite orb_true_r in H1.
  - rewrite hasChar_app in H2. simpl in H2. by rewrite orb_true_r in H2.
  - by eapply app_dot_inj.
Qed.

Lemma getSuffix_iff filename suffix :
  getSuffix filename = Some suffix ↔ isSuffixOf filename suffix.
Proof.
  destruct (getSuffix_spec filename) as (s & Hs & Hspec). split.
  - intros H. by simplify_eq.
  - intros H. by rewrite (isSuffixOf_fun _ _ _ H Hspec).
Qed.

Lemma magicCheck_false contents : magicCheck contents = false.
Proof.
  unfold magicCheck. destruct contents as [|c0 contents].
  - by rewrite andb_false_r.
  - destruct (Ascii.eqb c0 "000"%char) eqn:H0.
    + apply Ascii.eqb_eq in H0 as ->. by rewrite andb_false_r.
    + by rewrite andb_false_r.
Qed.

(** C9: with a suffix that is neither [wast] nor [wasm] the magic-number
    condition of [ModuleReader::read] is false whatever the file holds,
    and the reader calls [readText], never [readBinary]. *)
Theorem read_unclear_suffix_is_text read_file filename suffix :
  isSuffixOf filename suffix → suffix ≠ "wast" → suffix ≠ "wasm" →
  (∀ contents, magicCheck contents = false) ∧
  ModuleReader_read read_file filename = Some (readText filename).
Proof.
  intros Hsuf Hwast Hwasm. split; [apply magicCheck_false|].
  unfold ModuleReader_read. apply getSuffix_iff in Hsuf as ->. simpl.
  apply String.eqb_neq in Hwast as ->. apply String.eqb_neq in Hwasm as ->.
  by rewrite magicCheck_false.
Qed.

Lemma read_unclear_suffix_is_text_witness :
  ModuleReader_read (λ _, ["000"; "a"; "s"; "m"; "001"]%char) "module.bin"
  = Some (readText "module.bin").
Proof.
  refine (proj2 (read_unclear_suffix_is_text _ "module.bin" "bin" _ _ _)).
  - right. exists "module". split; reflexivity.
  - discriminate.
  - discriminate.
Defined.

(** C10: [ModuleWriter::write] calls [writeBinary] exactly when the text
    after the last dot of the file name is [wasm]; for every other name,
    [wast], an unknown suffix or no dot at all, it calls [writeText]. *)
Theorem write_binary_iff_wasm filename :
  ∃ suffix, isSuffixOf filename suffix ∧
    ModuleWriter_write filename
    = Some (if decide (suffix = "wasm") then writeBinary filename
            else writeText filename) ∧
    (ModuleWriter_write filename = Some (writeBinary filename)
     ↔ ∃ stem, filename = stem +:+ ".wasm") ∧
    (hasChar "." filename = false →
     ModuleWriter_write filename = Some (writeText filename)).
Proof.
  destruct (getSuffix_spec filename) as (suffix & Hget & Hspec).
  exists suffix. split; [done|].
  assert (Hw : ModuleWriter_write filename
    = Some (if decide (suffix = "wasm") then writeBinary filename
            else writeText filename)).
  { unfold ModuleWriter_write. rewrite Hget. simpl.
    destruct (decide (suffix = "wasm")) as [->|Hne]; [done|].
    by apply String.eqb_neq in Hne as ->. }
  split; [done|]. split.
  - rewrite Hw. destruct (decide (suffix = "wasm")) as [->|Hne].
    + split; [|done]. intros _.
      destruct Hspec as [[_ ?]|(stem & -> & _)]; [done|]. by exists stem.
    + split; [done|]. intros [stem ->]. exfalso. apply Hne.
      apply (isSuffixOf_fun (stem +:+ ".wasm")); [done|].
      right. by exists stem.
  - intros Hno. rewrite Hw.
    assert (suffix = "") as ->; [|done].
    apply (isSuffixOf_fun filename); [done|]. by left.
Qed.

End WasmIOFacts.

(** ** The dead code elimination pass *)

Module DCEFacts.
Import DCE.

(** *** Fields and pointers *)

Lemma getField_setField_eq e f c0 c :
  getField e f = Some c0 → getField (setField e f c) f = Some c.
Proof.
  destruct e, f; simpl; try done;
    repeat match goal with o : option Expression |- _ => destruct o end;
    simpl; try done;
    intros H%lookup_lt_Some; by apply list_lookup_insert_eq.
Qed.

Lemma getField_setField_ne e f f' c :
  f ≠ f' → getField (setField e f c) f' = getField e f'.
Proof.
  intros Hne. destruct e, f; simpl; try done;
    repeat match goal with o : option Expression |- _ => destruct o end;
    simpl; try done; destruct f'; simpl; try done;
    apply list_lookup_insert_ne; congruence.
Qed.

Lemma setField_setField e f c0 c c' :
  getField e f = Some c0 → setField (setField e f c) f c' = setField e f c'.
Proof.
  destruct e, f; simpl; try done;
    repeat match goal with o : option Expression |- _ => destruct o end;
    simpl; try done; intros _; by rewrite list_insert_insert_eq.
Qed.

Lemma setField_getField e f c : getField e f = Some c → setField e f c = e.
Proof.
  destruct e, f; simpl; try done;
    repeat match goal with o : option Expression |- _ => destruct o end;
    simpl; try done; try (by intros [= ->]);
    intros H; by rewrite list_insert_id.
Qed.


Lemma isIf_setField e f c : isIf (setField e f c) = isIf e.
Proof.
  destruct e, f; simpl; try done;
    repeat match goal with o : option Expression |- _ => destruct o end; done.
Qed.

Lemma ownLabel_setField e f c : ownLabel (setField e f c) = ownLabel e.
Proof.
  destruct e, f; simpl; try done;
    repeat match goal with o : option Expression |- _ => destruct o end; done.
Qed.

Lemma ownTargets_setField e f c : ownTargets (setField e f c) = ownTargets e.
Proof.
  destruct e, f; simpl; try done;
    repeat match goal with o : option Expression |- _ => destruct o end; done.
Qed.


Lemma getField_setType e t f : getField (setType e t) f = getField e f.
Proof. by destruct e, f. Qed.

Lemma setField_setType e t f c :
  setField (setType e t) f c = setType (setField e f c) t.
Proof.
  destruct e, f; simpl; try done;
    repeat match goal with o : option Expression |- _ => destruct o end; done.
Qed.

Lemma setType_setType e t t' : setType (setType e t) t' = setType e t'.
Proof. by destruct e. Qed.

Lemma setType_typeOf e : setType e (typeOf e) = e.
Proof. by destruct e. Qed.

Lemma childFields_setType e t : childFields (setType e t) = childFields e.
Proof. by destruct e. Qed.

Lemma isIf_setType e t : isIf (setType e t) = isIf e.
Proof. by destruct e. Qed.

Lemma ownLabel_setType e t : ownLabel (setType e t) = ownLabel e.
Proof. by destruct e. Qed.

Lemma ownTargets_setType e t : ownTargets (setType e t) = ownTargets e.
Proof. by destruct e. Qed.

Lemma nodeCount_setType e t : nodeCount (setType e t) = nodeCount e.
Proof. by destruct e. Qed.

Lemma scoped_setType env e t : scoped env (setType e t) = scoped env e.
Proof. by destruct e. Qed.

Lemma NoDup_fmap_seq (g : Index → Field) n :
  Inj (=) (=) g → NoDup (g <$> seq 0 n).
Proof. intros Hg. apply NoDup_fmap_2; [done|]. apply NoDup_seq. Qed.

#[local] Instance fList_inj : Inj (=) (=) fList.
Proof. by intros ?? [=]. Qed.
#[local] Instance fOperand_inj : Inj (=) (=) fOperand.
Proof. by intros ?? [=]. Qed.

Lemma NoDup_childFields e : NoDup (childFields e).
Proof.
  destruct e; simpl;
    repeat match goal with o : option Expression |- _ => destruct o end;
    simpl; try (by apply NoDup_fmap_seq; apply _);
    try (by repeat (constructor; [rewrite ?elem_of_cons, ?elem_of_nil; naive_solver|]);
         constructor).
  apply NoDup_app. split_and!.
  - apply NoDup_fmap_seq; apply _.
  - intros f [i [-> _]]%list_elem_of_fmap [=]%list_elem_of_singleton.
  - apply NoDup_singleton.
Qed.

Lemma childFields_getField e f :
  f ∈ childFields e → is_Some (getField e f).
Proof.
  assert (Hseq : ∀ (g : Index → Field) (l : list Expression) f0,
    f0 ∈ g <$> seq 0 (length l) → ∃ i, f0 = g i ∧ is_Some (l !! i)).
  { intros g l f0 (i & -> & [_ Hi]%elem_of_seq)%list_elem_of_fmap.
    exists i. split; [done|]. apply lookup_lt_is_Some. lia. }
  destruct e; simpl;
    repeat match goal with o : option Expression |- _ => destruct o end;
    simpl; rewrite ?elem_of_app;
    repeat setoid_rewrite elem_of_cons; repeat setoid_rewrite elem_of_nil;
    intros Hf;
    repeat match goal with
      | H : _ ∨ _ |- _ => destruct H as [H|H]
      | H : _ ∈ _ <$> seq _ _ |- _ => apply Hseq in H as (? & -> & ?)
      end;
    simplify_eq; simpl; eauto; done.
Qed.

Lemma getAt_app root p q : getAt root (p ++ q) = getAt root p ≫= λ e, getAt e q.
Proof.
  revert root. induction p as [|f p IH]; intros root; simpl; [done|].
  destruct (getField root f); simpl; [apply IH|done].
Qed.

Lemma getAt_snoc root p f e :
  getAt root p = Some e → getAt root (p ++ [f]) = getField e f.
Proof.
  intros H. rewrite getAt_app, H. simpl. by destruct (getField e f).
Qed.

Lemma setAt_app root p q e x :
  getAt root p = Some e → setAt root (p ++ q) x = setAt root p (setAt e q x).
Proof.
  revert root. induction p as [|f p IH]; intros root; simpl.
  - by intros [= ->].
  - destruct (getField root f) as [c|]; simpl; [|done].
    intros H. by rewrite (IH _ H).
Qed.

Lemma setAt_snoc root p f e c0 c :
  getAt root p = Some e → getField e f = Some c0 →
  setAt root (p ++ [f]) c = setAt root p (setField e f c).
Proof.
  intros H Hf. rewrite (setAt_app _ _ _ _ _ H). simpl. by rewrite Hf.
Qed.

Lemma getAt_setAt root p e x :
  getAt root p = Some e → getAt (setAt root p x) p = Some x.
Proof.
  revert root. induction p as [|f p IH]; intros root; simpl; [done|].
  destruct (getField root f) as [c|] eqn:Hf; simpl; [|done].
  intros H. erewrite getField_setField_eq by done. simpl. by eapply IH.
Qed.

Lemma setAt_setAt root p e x y :
  getAt root p = Some e → setAt (setAt root p x) p y = setAt root p y.
Proof.
  revert root. induction p as [|f p IH]; intros root; simpl; [done|].
  destruct (getField root f) as [c|] eqn:Hf; simpl; [|done].
  intros H. erewrite getField_setField_eq by done.
  erewrite setField_setField by done. by erewrite IH.
Qed.


(** *** Retyping the nodes above a pointer *)

Lemma placedAt_getAt p : ∀ r r' e, placedAt p r r' e → getAt r' p = Some e.
Proof.
  induction p as [|f p IH]; intros r r' e; simpl; [by intros ->|].
  intros (c & c' & t & Hf & Hp & ->).
  rewrite getField_setType. erewrite getField_setField_eq by done. simpl.
  by eapply IH.
Qed.

Lemma placedAt_is_Some p : ∀ r r' e, placedAt p r r' e → is_Some (getAt r p).
Proof.
  induction p as [|f p IH]; intros r r' e; simpl; [by eauto|].
  intros (c & c' & t & Hf & Hp & ->). rewrite Hf. simpl. by eapply IH.
Qed.

Lemma placedAt_refl p : ∀ r e, getAt r p = Some e → placedAt p r r e.
Proof.
  induction p as [|f p IH]; intros r e; simpl; [by intros [= ->]|].
  destruct (getField r f) as [c|] eqn:Hf; simpl; [|done]. intros Hp.
  exists c, c, (typeOf r). split_and!; [done|by apply IH|].
  by rewrite (setField_getField _ _ _ Hf), setType_typeOf.
Qed.

Lemma placedAt_trans p :
  ∀ r r1 r2 e1 e2,
    placedAt p r r1 e1 → placedAt p r1 r2 e2 → placedAt p r r2 e2.
Proof.
  induction p as [|f p IH]; intros r r1 r2 e1 e2; simpl; [done|].
  intros (c & c1 & t1 & Hf & Hp1 & ->) (d & d' & t2 & Hd & Hp2 & ->).
  rewrite getField_setType in Hd.
  erewrite getField_setField_eq in Hd by done. simplify_eq.
  exists c, d', t2. split_and!; [done|by eapply IH|].
  rewrite setField_setType, setType_setType.
  by erewrite setField_setField by done.
Qed.

Lemma placedAt_set p :
  ∀ r r1 e1 x, placedAt p r r1 e1 → placedAt p r (setAt r1 p x) x.
Proof.
  induction p as [|f p IH]; intros r r1 e1 x; simpl; [done|].
  intros (c & c1 & t1 & Hf & Hp1 & ->).
  rewrite getField_setType. erewrite getField_setField_eq by done.
  exists c, (setAt c1 p x), t1. split_and!; [done|by eapply IH|].
  rewrite setField_setType. by erewrite setField_setField by done.
Qed.

Lemma placedAt_retype choose p :
  ∀ above r e, getAt r p = Some e →
    placedAt p r (retypeAncestors choose above p r) e.
Proof.
  induction p as [|f p IH]; intros above r e; simpl; [by intros [= ->]|].
  destruct (getField r f) as [c|] eqn:Hf; simpl; [|done]. intros Hp.
  eexists c, _, _. split_and!; [done|by apply IH|done].
Qed.

Lemma placedAt_tell choose above p root r e :
  placedAt p root r e → placedAt p root (retypeAncestors choose above p r) e.
Proof.
  intros H. eapply placedAt_trans; [exact H|].
  apply placedAt_retype. by eapply placedAt_getAt.
Qed.

(** What a walk below a node leaves of the node: the child walked, and
    a type. *)
Lemma placedAt_child p f :
  ∀ r r' e c', getAt r p = Some e →
    placedAt (p ++ [f]) r r' c' →
    ∃ t, placedAt p r r' (setType (setField e f c') t).
Proof.
  induction p as [|g p IH]; intros r r' e c'; simpl.
  - intros [= ->] (c0 & c1 & t & Hf & -> & ->). by exists t.
  - destruct (getField r g) as [c|] eqn:Hg; simpl; [|done].
    intros Hp (d & d' & t & Hd & Hpl & ->). simplify_eq.
    destruct (IH _ _ _ _ Hp Hpl) as [t' Ht']. exists t'.
    by exists d, d', t.
Qed.

Lemma placedAt_partWays p q :
  partWays p q → ∀ r r' e, placedAt p r r' e → getAt r' q = getAt r q.
Proof.
  intros (common & f & g & p' & q' & -> & -> & Hne).
  induction common as [|h common IH]; intros r r' e; simpl.
  - intros (c & c' & t & Hf & Hp & ->).
    by rewrite getField_setType, getField_setField_ne.
  - intros (c & c' & t & Hh & Hp & ->).
    rewrite getField_setType. erewrite getField_setField_eq by done.
    rewrite Hh. simpl. by eapply IH.
Qed.

Lemma anyNode_inv P e :
  anyNode P e = false →
  P e = false ∧ ∀ f c, getField e f = Some c → anyNode P c = false.
Proof.
  assert (Hany : ∀ l,
    (fix any (l : list Expression) : bool :=
       match l with [] => false | x :: l' => anyNode P x || any l' end) l = false →
    ∀ i c, l !! i = Some c → anyNode P c = false).
  { induction l as [|x l IH]; intros H [|i] c; simpl; try done.
    - intros [= <-]. by apply orb_false_iff in H as [? _].
    - apply IH. by apply orb_false_iff in H as [_ ?]. }
  intros H.
  assert (H' : P e = false ∧ (anyNode P e = false)) by
    (split; [|done]; destruct e; simpl in H; by apply orb_false_iff in H as [? _]).
  destruct H' as [HP _]. split; [done|]. intros f c Hf.
  destruct e; simpl in H; apply orb_false_iff in H as [_ H];
    destruct f; simpl in Hf; try done;
    repeat match goal with o : option Expression |- _ => destruct o end;
    simpl in *; simplify_eq;
    repeat match goal with
      | H : _ || _ = false |- _ => apply orb_false_iff in H as [? ?]
      end;
    try done; by eapply Hany.
Qed.

Lemma anyNode_getAt P e p x :
  getAt e p = Some x → P x = true → anyNode P e = true.
Proof.
  revert e. induction p as [|f p IH]; intros e; simpl.
  - intros [= ->] Hx. destruct x; simpl; by rewrite Hx.
  - destruct (getField e f) as [c|] eqn:Hf; simpl; [|done].
    intros Hp Hx. specialize (IH c Hp Hx).
    destruct (anyNode P e) eqn:He; [done|].
    apply anyNode_inv in He as [_ He]. by rewrite (He f c Hf) in IH.
Qed.

(** *** The task loop *)

Section Machine.
Context {collab : Collaborators}.

Lemma machine_eta self :
  self = machine (body self) (stack self) (replacep self) (flagsOf self).
Proof. by destruct self. Qed.

Lemma exec_add n m self : exec (n + m) self = exec n self ≫= exec m.
Proof.
  revert self. induction n as [|n IH]; intros self; simpl; [done|].
  destruct (step self) as [self'|]; simpl; [apply IH|done].
Qed.

Lemma step_machine root t k rp fl :
  step (machine root (t :: k) rp fl) = runTask (machine root k (currpOf t) fl) t.
Proof. done. Qed.

Lemma walkLoop_exec n fuel self self' :
  exec n self = Some self' → stack self' = [] → n ≤ fuel →
  walkLoop fuel self = Done self'.
Proof.
  revert fuel self. induction n as [|n IH]; intros fuel self; simpl.
  - intros [= ->] Hk _. destruct fuel; simpl; by rewrite Hk.
  - destruct (step self) as [self1|] eqn:Hstep; simpl; [|done].
    intros Hex Hk Hle. destruct fuel as [|fuel]; [lia|]. simpl.
    unfold step in Hstep. destruct (stack self) eqn:Hs; [done|].
    unfold step. rewrite Hs, Hstep. apply IH; [done..|lia].
Qed.

Lemma pushTasks_stack (g : Field → Task) self l :
  foldl (λ self f, pushTask self (g f)) self l
  = set_stack self ((g <$> reverse l) ++ stack self).
Proof.
  revert self. induction l as [|a l IH]; intros self; simpl.
  - by destruct self.
  - rewrite IH, reverse_cons, fmap_app. simpl.
    by rewrite <-app_assoc.
Qed.

Lemma PostWalker_scan_stack self currp curr :
  PostWalker_scan self currp curr
  = set_stack self (((λ f, scan_task (currp ++ [f])) <$> childFields curr)
                    ++ doVisit currp :: stack self).
Proof.
  unfold PostWalker_scan. rewrite pushTasks_stack, reverse_involutive.
  by destruct self.
Qed.

Lemma foldl_addBreak self targets :
  foldl addBreak self targets
  = if reachable self
    then set_reachableBreaks self (list_to_set targets ∪ reachableBreaks self)
    else self.
Proof.
  revert self. induction targets as [|a l IH]; intros self; simpl.
  - destruct self as [? ? ? ? [] ? ?]; simpl; [|done].
    unfold set_reachableBreaks; simpl. f_equal. set_solver.
  - rewrite IH. unfold addBreak.
    destruct self as [? ? ? ? [] ? ?]; simpl; [|done].
    unfold set_reachableBreaks; simpl. f_equal. set_solver.
Qed.

Ltac solve_placed Hp :=
  repeat first
    [ by apply placedAt_refl
    | apply placedAt_tell
    | eapply placedAt_set ].

(** Visitors act on the tree through [replacep] only: in a tree, a
    visitor leaves at [replacep] what it leaves of the node alone; above
    it, the type updater may have retyped nodes. *)
Lemma visit_inTree root p k e fl e' fl' :
  getAt root p = Some e →
  visitNode e fl = Some (e', fl') →
  ∃ root', visit (machine root k p fl) e = Some (machine root' k p fl')
           ∧ placedAt p root root' e'.
Proof.
  intros Hp Hv.
  assert (Hget : ∀ x, getAt (setAt root p x) p = Some x)
    by (intros; by eapply getAt_setAt).
  unfold visitNode in Hv. revert Hv.
  destruct e; simpl;
    unfold visitBlock, visitIf, visitLoop, visitBreak, visitSwitch, visitCall,
      visitCallImport, visitHost, visitCallIndirect, handleCall, visitSetLocal,
      visitLoad, visitStore, visitUnary, visitBinary, visitSelect, visitDrop,
      visitReturn, visitUnreachable;
    rewrite ?foldl_addBreak;
    unfold replaceCurrent, getCurrent, mutateCurrent, tell, addBreak, onNode,
      machine;
    simpl; rewrite ?Hp, ?Hget; simpl;
    repeat case_match; simplify_eq/=; intros; simplify_eq/=;
    rewrite ?Hp, ?Hget; simpl;
    (eexists; split; [reflexivity|solve_placed Hp]).
Qed.

Lemma exec_seq n m a b c :
  exec n a = Some b → exec m b = Some c → exec (n + m) a = Some c.
Proof. intros Ha Hb. by rewrite exec_add, Ha. Qed.

Lemma exec_scan_dead root p k rp e fl :
  getAt root p = Some e → fl_reachable fl = false →
  ∃ root',
    exec 1 (machine root (scan_task p :: k) rp fl)
    = Some (machine root' k p (killNode e fl).2)
    ∧ placedAt p root root' (killNode e fl).1.
Proof.
  intros Hp Hr. simpl. rewrite step_machine. simpl. unfold scan. simpl.
  rewrite Hp. simpl. rewrite Hr. simpl.
  destruct e; simpl;
    try (eexists; split; [reflexivity|];
         eapply placedAt_set, placedAt_tell; by apply placedAt_refl).
  eexists; split; [reflexivity|]. by apply placedAt_refl.
Qed.

Lemma exec_scan_node root p k rp e fl :
  getAt root p = Some e → fl_reachable fl = true → isIf e = false →
  exec 1 (machine root (scan_task p :: k) rp fl)
  = Some (machine root (scanTasks p (childFields e) ++ doVisit p :: k) p fl).
Proof.
  intros Hp Hr Hif. simpl. rewrite step_machine. simpl. unfold scan. simpl.
  rewrite Hp. simpl. rewrite Hr. simpl.
  transitivity (Some (PostWalker_scan (machine root k p fl) p e)).
  { by destruct e. }
  by rewrite PostWalker_scan_stack.
Qed.

Lemma exec_scan_If root p k rp c t f ty fl :
  getAt root p = Some (If c t f ty) → fl_reachable fl = true →
  exec 1 (machine root (scan_task p :: k) rp fl)
  = Some (machine root
            (scan_task (p ++ [fCondition]) :: doAfterIfCondition_task p
             :: scan_task (p ++ [fIfTrue]) :: elseTasks p f ++ doVisitIf p :: k)
            p fl).
Proof.
  intros Hp Hr. simpl. rewrite step_machine. simpl. unfold scan. simpl.
  rewrite Hp. simpl. rewrite Hr. simpl. by destruct f.
Qed.

Lemma exec_doVisit root p k rp e fl e' fl' :
  getAt root p = Some e → visitNode e fl = Some (e', fl') →
  ∃ root',
    exec 1 (machine root (doVisit p :: k) rp fl) = Some (machine root' k p fl')
    ∧ placedAt p root root' e'.
Proof.
  intros Hp Hv. simpl. rewrite step_machine. simpl. rewrite Hp. simpl.
  destruct (visit_inTree root p k e fl e' fl' Hp Hv) as (root' & Hvisit & Hpl).
  exists root'. by rewrite Hvisit.
Qed.

Lemma exec_doVisitIf root p k rp c t f ty fl e' fl' :
  getAt root p = Some (If c t f ty) →
  visitNode (If c t f ty) fl = Some (e', fl') →
  ∃ root',
    exec 1 (machine root (doVisitIf p :: k) rp fl) = Some (machine root' k p fl')
    ∧ placedAt p root root' e'.
Proof.
  intros Hp Hv. simpl. rewrite step_machine. simpl. rewrite Hp. simpl.
  destruct (visit_inTree root p k _ fl e' fl' Hp Hv) as (root' & Hvisit & Hpl).
  exists root'. simpl in Hvisit. by rewrite Hvisit.
Qed.

Lemma exec_afterIfCondition root p k rp fl :
  exec 1 (machine root (doAfterIfCondition_task p :: k) rp fl)
  = Some (machine root k p (afterIfCondition fl)).
Proof. done. Qed.

Lemma exec_afterIfElseTrue root p k rp c t f ty fl fl' :
  getAt root p = Some (If c t (Some f) ty) → afterIfElseTrue fl = Some fl' →
  exec 1 (machine root (doAfterIfElseTrue_task p :: k) rp fl)
  = Some (machine root k p fl').
Proof.
  intros Hp Hfl. simpl. rewrite step_machine. simpl.
  unfold doAfterIfElseTrue. simpl. rewrite Hp. simpl.
  unfold afterIfElseTrue in Hfl. destruct (fl_ifStack fl); by simplify_eq.
Qed.

(** *** Every walk ends *)

Lemma sum_list_lookup_seq (l : list Expression) (g : Index → Field)
    (get : Field → option Expression) :
  (∀ i, get (g i) = l !! i) →
  sum_list_with (λ f, from_option nodeCount 0 (get f)) (g <$> seq 0 (length l))
  = sum_list_with nodeCount l.
Proof.
  revert g. induction l as [|x l IH]; intros g Hget; simpl; [done|].
  rewrite (Hget 0). simpl. f_equal.
  rewrite <-fmap_S_seq, <-list_fmap_compose. apply IH.
  intros i. apply (Hget (S i)).
Qed.

Lemma nodeCount_children e : nodeCount e = S (childCount e (childFields e)).
Proof.
  assert (Hs : ∀ l, (fix sizes (l : list Expression) : nat :=
              match l with [] => 0 | x :: l' => nodeCount x + sizes l' end) l
            = sum_list_with nodeCount l).
  { induction l as [|x l IH]; simpl; [done|]. by rewrite IH. }
  unfold childCount.
  destruct e; simpl; rewrite ?Hs;
    repeat match goal with o : option Expression |- _ => destruct o end;
    rewrite ?sum_list_with_app;
    rewrite ?(sum_list_lookup_seq _ fList), ?(sum_list_lookup_seq _ fOperand);
    simpl; try done; lia.
Qed.

Lemma childCount_setField e f c fs :
  f ∉ fs → childCount (setField e f c) fs = childCount e fs.
Proof.
  unfold childCount. induction fs as [|f' fs IH]; simpl; [done|].
  intros [Hne Hf]%not_elem_of_cons. rewrite IH by done.
  by rewrite getField_setField_ne.
Qed.

Lemma child_nodeCount e f :
  f ∈ childFields e → ∃ c, getField e f = Some c ∧ nodeCount c < nodeCount e.
Proof.
  intros Hf. destruct (childFields_getField e f Hf) as [c Hc].
  exists c. split; [done|]. rewrite (nodeCount_children e).
  pose proof (sum_list_with_in f
    (λ f, from_option nodeCount 0 (getField e f)) (childFields e) Hf) as Hle.
  simpl in Hle. rewrite Hc in Hle. simpl in Hle. unfold childCount. lia.
Qed.

Lemma visitNode_total e fl :
  isIf e = false →
  ∃ e' fl', visitNode e fl = Some (e', fl') ∧ fl_ifStack fl' = fl_ifStack fl.
Proof.
  intros Hif. unfold visitNode.
  destruct e; try done; simpl;
    unfold visitBlock, visitLoop, visitBreak, visitSwitch, visitCall,
      visitCallImport, visitHost, visitCallIndirect, handleCall, visitSetLocal,
      visitLoad, visitStore, visitUnary, visitBinary, visitSelect, visitDrop,
      visitReturn, visitUnreachable;
    rewrite ?foldl_addBreak;
    unfold replaceCurrent, getCurrent, mutateCurrent, addBreak, onNode;
    simpl; repeat case_match; simplify_eq/=; eauto.
Qed.

Lemma visitNode_If_total c t f ty fl top rest :
  fl_ifStack fl = top :: rest →
  ∃ e' fl', visitNode (If c t f ty) fl = Some (e', fl') ∧ fl_ifStack fl' = rest
            ∧ fl_reachable fl' = fl_reachable fl || top.
Proof.
  intros Hs. unfold visitNode. simpl. unfold visitIf. simpl. rewrite Hs.
  unfold replaceCurrent, getCurrent, mutateCurrent. simpl.
  case_match; simpl; eauto.
Qed.

Lemma exec_fields N :
  (∀ c, nodeCount c < N → walksSubtree c) →
  ∀ fs e ty root p k rp fl, NoDup fs →
    (∀ f, f ∈ fs → ∃ c, getField e f = Some c ∧ nodeCount c < N) →
    getAt root p = Some (setType e ty) →
    ∃ m e1 fl1 rp1 root1 ty1,
      WalkFields m e fs fl e1 fl1 ∧
      exec m (machine root (scanTasks p fs ++ k) rp fl)
      = Some (machine root1 k rp1 fl1) ∧
      placedAt p root root1 (setType e1 ty1) ∧
      m ≤ 4 * childCount e fs ∧
      fl_ifStack fl1 = fl_ifStack fl ∧ isIf e1 = isIf e.
Proof.
  intros IH. induction fs as [|f fs IHfs]; intros e ty root p k rp fl Hnd Hfs Hp.
  - exists 0, e, fl, rp, root, ty.
    split_and!; [constructor|done|by apply placedAt_refl|done..].
  - apply NoDup_cons in Hnd as [Hf Hnd].
    destruct (Hfs f) as (c & Hc & HcN); [by left|].
    destruct (IH c HcN root (p ++ [f]) (scanTasks p fs ++ k) rp fl)
      as (n & c' & fl1 & rp1 & root1 & HW & Hex1 & Hpl1 & Hn & Hst).
    { rewrite (getAt_snoc _ _ _ _ Hp). by rewrite getField_setType. }
    destruct (placedAt_child _ _ _ _ _ _ Hp Hpl1) as [t Hpl].
    rewrite setField_setType, setType_setType in Hpl.
    destruct (IHfs (setField e f c') t root1 p k rp1 fl1 Hnd)
      as (m & e1 & fl2 & rp2 & root2 & ty2 & HWF & Hex2 & Hpl2 & Hm & Hst2 & Hif).
    { intros f' Hf'. destruct (Hfs f') as (c1 & Hc1 & Hc1N); [by right|].
      exists c1. split; [|done]. rewrite getField_setField_ne; [done|].
      by intros ->. }
    { by eapply placedAt_getAt. }
    exists (n + m), e1, fl2, rp2, root2, ty2. split_and!.
    + by econstructor.
    + simpl. by eapply exec_seq.
    + by eapply placedAt_trans.
    + rewrite childCount_setField in Hm by done.
      unfold childCount in *. simpl. rewrite Hc. simpl. lia.
    + congruence.
    + by rewrite Hif, isIf_setField.
Qed.

Lemma exec_subtree e : walksSubtree e.
Proof.
  remember (nodeCount e) as N eqn:HN. revert e HN.
  induction N as [N IH] using lt_wf_ind. intros e -> root p k rp fl Hp.
  assert (IH' : ∀ c, nodeCount c < nodeCount e → walksSubtree c)
    by (intros c Hc; by eapply IH).
  clear IH.
  destruct (fl_reachable fl) eqn:Hr; cycle 1.
  { destruct (exec_scan_dead root p k rp e fl Hp Hr) as (root' & Hex & Hpl).
    exists 1, (killNode e fl).1, (killNode e fl).2, p, root'. split_and!.
    - by constructor.
    - done.
    - done.
    - destruct e; simpl; lia.
    - by destruct e. }
  destruct (isIf e) eqn:Hif.
  - destruct e as [| c t f ty | | | | | | | | | | | | | | | | | | | | |];
      try done.
    set (k2 := elseTasks p f ++ doVisitIf p :: k).
    set (k1 := doAfterIfCondition_task p :: scan_task (p ++ [fIfTrue]) :: k2).
    destruct (IH' c ltac:(simpl; lia) root (p ++ [fCondition]) k1 p fl)
      as (n1 & c' & fl1 & rp1 & root1 & HW1 & Hex1 & Hpl1 & Hn1 & Hs1).
    { by rewrite (getAt_snoc _ _ _ _ Hp). }
    destruct (placedAt_child _ _ _ _ _ _ Hp Hpl1) as [ty1 Hp1]. simpl in Hp1.
    pose proof (placedAt_getAt _ _ _ _ Hp1) as Hg1.
    destruct (IH' t ltac:(simpl; lia) root1 (p ++ [fIfTrue]) k2 p
                (afterIfCondition fl1))
      as (n2 & t' & fl2 & rp2 & root2 & HW2 & Hex2 & Hpl2 & Hn2 & Hs2).
    { by rewrite (getAt_snoc _ _ _ _ Hg1). }
    destruct (placedAt_child _ _ _ _ _ _ Hg1 Hpl2) as [ty2 Hp2]. simpl in Hp2.
    pose proof (placedAt_getAt _ _ _ _ Hp2) as Hg2.
    pose proof (placedAt_trans _ _ _ _ _ _ Hp1 Hp2) as Hp12.
    simpl in Hs2. destruct f as [f|].
    + destruct (afterIfElseTrue fl2) as [fl2'|] eqn:Hb; cycle 1.
      { unfold afterIfElseTrue in Hb. by rewrite Hs2 in Hb. }
      destruct (IH' f ltac:(simpl; lia) root2 (p ++ [fIfFalse])
                  (doVisitIf p :: k) p fl2')
        as (n3 & f' & fl3 & rp3 & root3 & HW3 & Hex3 & Hpl3 & Hn3 & Hs3).
      { by rewrite (getAt_snoc _ _ _ _ Hg2). }
      destruct (placedAt_child _ _ _ _ _ _ Hg2 Hpl3) as [ty3 Hp3]. simpl in Hp3.
      pose proof (placedAt_getAt _ _ _ _ Hp3) as Hg3.
      assert (Hs3' : fl_ifStack fl3 = fl_reachable fl2 :: fl_ifStack fl1).
      { rewrite Hs3. unfold afterIfElseTrue in Hb. rewrite Hs2 in Hb.
        by simplify_eq. }
      destruct (visitNode_If_total c' t' (Some f') ty3 fl3 _ _ Hs3')
        as (e2 & fl4 & Hv & Hs4 & _).
      destruct (exec_doVisitIf root3 p k rp3 _ _ _ _ fl3 e2 fl4 Hg3 Hv)
        as (root4 & Hex4 & Hp4).
      exists (S (n1 + S (n2 + S (n3 + 1)))), e2, fl4, p, root4. split_and!.
      * by econstructor.
      * replace (S (n1 + S (n2 + S (n3 + 1))))
          with (1 + (n1 + (1 + (n2 + (1 + (n3 + 1)))))) by lia.
        eapply exec_seq; [by eapply exec_scan_If|].
        eapply exec_seq; [exact Hex1|].
        eapply exec_seq; [apply exec_afterIfCondition|].
        eapply exec_seq; [exact Hex2|].
        eapply exec_seq; [by eapply exec_afterIfElseTrue|].
        eapply exec_seq; [exact Hex3|]. exact Hex4.
      * eapply placedAt_trans; [|exact Hp4].
        eapply placedAt_trans; [exact Hp12|exact Hp3].
      * simpl. lia.
      * congruence.
    + destruct (visitNode_If_total c' t' None ty2 fl2 _ _ Hs2)
        as (e2 & fl3 & Hv & Hs3 & _).
      destruct (exec_doVisitIf root2 p k rp2 _ _ _ _ fl2 e2 fl3 Hg2 Hv)
        as (root3 & Hex3 & Hp3).
      exists (S (n1 + S (n2 + 1))), e2, fl3, p, root3. split_and!.
      * by econstructor.
      * replace (S (n1 + S (n2 + 1))) with (1 + (n1 + (1 + (n2 + 1)))) by lia.
        eapply exec_seq; [by eapply exec_scan_If|].
        eapply exec_seq; [exact Hex1|].
        eapply exec_seq; [apply exec_afterIfCondition|].
        eapply exec_seq; [exact Hex2|]. exact Hex3.
      * eapply placedAt_trans; [exact Hp12|exact Hp3].
      * simpl. lia.
      * congruence.
  - destruct (exec_fields (nodeCount e) IH' (childFields e) e (typeOf e) root p
                (doVisit p :: k) p fl)
      as (m & e1 & fl1 & rp1 & root1 & ty1 & HWF & Hex1 & Hpl1 & Hm & Hs1 & Hif1).
    { apply NoDup_childFields. }
    { intros f Hf. by apply child_nodeCount. }
    { by rewrite setType_typeOf. }
    destruct (visitNode_total (setType e1 ty1) fl1) as (e2 & fl2 & Hv & Hs2).
    { rewrite isIf_setType. congruence. }
    destruct (exec_doVisit root1 p k rp1 _ fl1 e2 fl2
                (placedAt_getAt _ _ _ _ Hpl1) Hv) as (root2 & Hex2 & Hpl2).
    exists (S (m + 1)), e2, fl2, p, root2. split_and!.
    + by econstructor.
    + replace (S (m + 1)) with (1 + (m + 1)) by lia.
      eapply exec_seq; [by apply exec_scan_node|].
      eapply exec_seq; [exact Hex1|exact Hex2].
    + by eapply placedAt_trans.
    + rewrite (nodeCount_children e). lia.
    + congruence.
Qed.

(** *** The visitors *)

Lemma firstUnreachable_Some l k :
  firstUnreachable l = Some k →
  ∃ dead, l !! k = Some dead ∧ typeOf dead = unreachable
          ∧ ∀ j x, j < k → l !! j = Some x → typeOf x ≠ unreachable.
Proof.
  revert k. induction l as [|x l IH]; intros k; simpl; [done|].
  case_bool_decide as Hx.
  - intros [= <-]. exists x. split_and!; [done..|]. intros; lia.
  - destruct (firstUnreachable l) as [k'|]; simpl; [|done].
    intros [= <-]. destruct (IH k' eq_refl) as (dead & Hk & Hd & Hlt).
    exists dead. split_and!; [done..|].
    intros [|j] y Hj; simpl; [by intros [= <-]|]. apply Hlt. lia.
Qed.


Lemma drop_reachable x : typeOf x ≠ unreachable → drop x = makeDrop x.
Proof. intros Hx. unfold drop. by rewrite bool_decide_false. Qed.

Lemma drop_unreachable x : typeOf x = unreachable → drop x = x.
Proof. intros Hx. unfold drop. by rewrite bool_decide_true. Qed.

Lemma handleCallFrom_rule operands type done_ rest :
  operands = done_ ++ rest →
  handleCallFrom operands type (length done_) rest
  = k ← firstUnreachable rest;
    dead ← rest !! k;
    Some (if bool_decide (length done_ + k = 0) then dead
          else newBlock ((drop <$> take (length done_ + k) operands) ++ [dead])
                        type).
Proof.
  revert done_. induction rest as [|x rest IH]; intros done_ Hops; simpl; [done|].
  unfold isUnreachable. case_bool_decide as Hx; simpl.
  - rewrite Nat.add_0_r. case_bool_decide as Hi.
    + rewrite bool_decide_false by lia. do 2 f_equal.
      rewrite Hops, Nat.add_1_r.
      erewrite take_S_r by (by apply list_lookup_middle).
      rewrite fmap_app. simpl. by rewrite (drop_unreachable x).
    + by rewrite bool_decide_true by lia.
  - specialize (IH (done_ ++ [x])). rewrite length_app in IH. simpl in IH.
    rewrite IH by (by rewrite <-app_assoc).
    destruct (firstUnreachable rest) as [k|]; simpl; [|done].
    destruct (rest !! k) as [dead|]; simpl; [|done].
    replace (length done_ + 1 + k) with (length done_ + S k) by lia.
    done.
Qed.

Lemma firstUnreachable_None l :
  firstUnreachable l = None → ∀ i x, l !! i = Some x → typeOf x ≠ unreachable.
Proof.
  induction l as [|y l IH]; simpl; [done|].
  case_bool_decide as Hy; [done|].
  destruct (firstUnreachable l); [done|]. intros _ [|i] x; simpl.
  - by intros [= <-].
  - by apply IH.
Qed.

(** [replaceCurrent] on a pointer that points at a node. *)
Lemma replaceCurrent_spec self old expression :
  getCurrent self = Some old →
  ∃ self',
    replaceCurrent self expression = Some self' ∧
    getCurrent self' = Some expression ∧
    elsewhereUnchanged self self' ∧ sameFlags self self' ∧
    typeUpdater self' = typeUpdater self ++ [tuNoteReplacement old expression] ∧
    placedAt (replacep self) (body self) (body self') expression.
Proof.
  unfold replaceCurrent, getCurrent. intros Hold. rewrite Hold. simpl.
  assert (Hpl : placedAt (replacep self) (body self)
    (retypeAncestors
       (TypeUpdater_retype (typeUpdater self ++ [tuNoteReplacement old expression])
          (setAt (body self) (replacep self) expression) (replacep self))
       [] (replacep self) (setAt (body self) (replacep self) expression))
    expression).
  { apply placedAt_tell. eapply placedAt_set. by apply placedAt_refl. }
  eexists. split; [done|]. simpl. split_and!; try done.
  - unfold getCurrent. simpl. by eapply placedAt_getAt.
  - split; [|done]. intros q Hq. simpl. by eapply placedAt_partWays.
Qed.

Lemma replaceCurrent_flags self expression self' :
  replaceCurrent self expression = Some self' → sameFlags self self'.
Proof.
  unfold replaceCurrent. destruct (getCurrent self); simpl; [|done].
  by intros [= <-].
Qed.

Lemma followRule_flags self operands type self' :
  followRule self operands type = Some self' → sameFlags self self'.
Proof.
  unfold followRule. destruct (evaluationOrderRule operands type).
  - apply replaceCurrent_flags.
  - by intros [= <-].
Qed.

Lemma handleCall_followRule self operands type :
  fst <$> handleCall self operands type = followRule self operands type.
Proof.
  unfold handleCall, followRule, evaluationOrderRule.
  pose proof (handleCallFrom_rule operands type [] operands eq_refl) as Hr.
  simpl in Hr. rewrite Hr.
  destruct (firstUnreachable operands ≫= _) as [replacement|]; [|done].
  by destruct (replaceCurrent self replacement).
Qed.

(** What the evaluation-order rule gives, written out. *)
Lemma evaluationOrderRule_spec operands type :
  match firstUnreachable operands with
  | None => evaluationOrderRule operands type = None
  | Some k =>
      ∃ dead, operands !! k = Some dead ∧ typeOf dead = unreachable ∧
        (∀ j x, j < k → operands !! j = Some x → typeOf x ≠ unreachable) ∧
        let list_ := (makeDrop <$> take k operands) ++ [dead] in
        length list_ = k + 1 ∧
        evaluationOrderRule operands type
        = Some (if bool_decide (k = 0) then dead
                else Block None list_ (Block_finalize None list_ type))
  end.
Proof.
  unfold evaluationOrderRule.
  destruct (firstUnreachable operands) as [k|] eqn:Hk; simpl; [|done].
  destruct (firstUnreachable_Some _ _ Hk) as (dead & Hd & Hty & Hlt).
  exists dead. split_and!; [done..| |].
  - rewrite length_app, length_fmap, length_take. simpl.
    apply lookup_lt_Some in Hd. lia.
  - rewrite Hd. simpl. do 2 f_equal. unfold newBlock.
    assert (Hdrops : drop <$> take k operands = makeDrop <$> take k operands).
    { apply list_fmap_ext. intros j x Hj. apply drop_reachable.
      apply lookup_take_Some in Hj as [Hj Hjk]. by eapply Hlt. }
    by rewrite Hdrops.
Qed.

(** A visitor that follows the evaluation-order rule, on the node
    [replacep] points at: with no operand of type unreachable the
    walker is left as it is; otherwise the node is replaced by what the
    rule gives. *)
Lemma followRule_spec self curr operands type :
  getCurrent self = Some curr →
  match evaluationOrderRule operands type with
  | None => followRule self operands type = Some self
  | Some replacement =>
      ∃ self',
        followRule self operands type = Some self' ∧
        getCurrent self' = Some replacement ∧
        elsewhereUnchanged self self' ∧ sameFlags self self' ∧
        typeUpdater self'
        = typeUpdater self ++ [tuNoteReplacement curr replacement]
  end.
Proof.
  intros Hcur. unfold followRule.
  destruct (evaluationOrderRule operands type) as [replacement|]; [|done].
  destruct (replaceCurrent_spec self curr replacement Hcur)
    as (self' & Hrep & Hget & Hels & Hfl & Hlog & _).
  by exists self'.
Qed.

Lemma followRule_rewritten self curr operands type :
  getCurrent self = Some curr →
  rewrittenByRule self curr operands type (followRule self operands type).
Proof.
  intros Hcur. unfold rewrittenByRule.
  pose proof (evaluationOrderRule_spec operands type) as Hrule.
  pose proof (followRule_spec self curr operands type Hcur) as Hfollow.
  destruct (firstUnreachable operands) as [k|].
  - destruct Hrule as (dead & Hd & Hty & Hlt & Hlen & Hrule).
    rewrite Hrule in Hfollow.
    destruct Hfollow as (self' & Hf & Hget & Hels & Hfl & Hlog).
    exists dead, self'. by split_and!.
  - by rewrite Hrule in Hfollow.
Qed.

(** C1: the visitors of [Call], [CallImport] and [Host], run on the node
    [replacep] points at.  With the first operand of type unreachable
    at index [k], the node is replaced, in the tree, by that operand
    when [k = 0], and otherwise by a block, finalized to the node's
    type, of [k + 1] elements: the operands before it, none of them of
    type unreachable, each in a [Drop], then the dead operand; nothing
    else in the tree changes, the flags stay, and the type updater is
    told of the replacement.  With no operand of type unreachable the
    walker, and with it the node, is left as it is. *)
Theorem call_like_evaluation_order self curr target op operands type :
  curr = Call target operands type ∨ curr = CallImport target operands type
  ∨ curr = Host op operands type →
  getCurrent self = Some curr →
  match firstUnreachable operands with
  | None => visit self curr = Some self
  | Some k =>
      ∃ dead self',
        operands !! k = Some dead ∧ typeOf dead = unreachable ∧
        (∀ j x, j < k → operands !! j = Some x → typeOf x ≠ unreachable) ∧
        let list_ := (makeDrop <$> take k operands) ++ [dead] in
        let replacement :=
          if bool_decide (k = 0) then dead
          else Block None list_ (Block_finalize None list_ type) in
        length list_ = k + 1 ∧
        visit self curr = Some self' ∧
        getCurrent self' = Some replacement ∧
        elsewhereUnchanged self self' ∧ sameFlags self self' ∧
        typeUpdater self'
        = typeUpdater self ++ [tuNoteReplacement curr replacement]
  end.
Proof.
  intros Hcurr Hcur.
  assert (Hvisit : visit self curr = followRule self operands type).
  { destruct Hcurr as [-> | [-> | ->]]; simpl;
      unfold visitCall, visitCallImport, visitHost;
      apply handleCall_followRule. }
  rewrite Hvisit.
  pose proof (evaluationOrderRule_spec operands type) as Hrule.
  pose proof (followRule_spec self curr operands type Hcur) as Hfollow.
  destruct (firstUnreachable operands) as [k|].
  - destruct Hrule as (dead & Hd & Hty & Hlt & Hlen & Hrule).
    rewrite Hrule in Hfollow.
    destruct Hfollow as (self' & Hf & Hget & Hels & Hfl & Hlog).
    exists dead, self'. by split_and!.
  - by rewrite Hrule in Hfollow.
Qed.

(** C3: a scan that finds [reachable] false turns the node, in place,
    into an [Unreachable], tells the type updater of the recursive
    removal of the old node, and pushes no task, so that no child is
    scanned or visited; nothing else in the tree changes but the types
    of the nodes above, which the updater may set.  A node that is an
    [Unreachable] already is left as it is, without a word to the type
    updater. *)
Theorem scan_when_unreachable self currp curr :
  getAt (body self) currp = Some curr →
  reachable self = false →
  ∃ self',
    scan self currp = Some self' ∧
    stack self' = stack self ∧
    reachable self' = false ∧
    reachableBreaks self' = reachableBreaks self ∧
    ifStack self' = ifStack self ∧
    getAt (body self') currp = Some Unreachable ∧
    (∀ q, partWays currp q → getAt (body self') q = getAt (body self) q) ∧
    placedAt currp (body self) (body self') Unreachable ∧
    (curr = Unreachable → self' = self) ∧
    (curr ≠ Unreachable →
       body self'
       = setAt (body (tell self (tuNoteRecursiveRemoval curr) currp)) currp
               Unreachable ∧
       typeUpdater self' = typeUpdater self ++ [tuNoteRecursiveRemoval curr]).
Proof.
  intros Hp Hr.
  assert (Hpl : placedAt currp (body self)
    (setAt (body (tell self (tuNoteRecursiveRemoval curr) currp)) currp Unreachable)
    Unreachable).
  { eapply placedAt_set. simpl. apply placedAt_tell. by apply placedAt_refl. }
  unfold scan. rewrite Hp. simpl. rewrite Hr. simpl.
  destruct curr;
    try (eexists; split_and!; [done..|by eapply placedAt_getAt|
           by intros q Hq; eapply placedAt_partWays|exact Hpl|done|done]).
  exists self. split_and!; try done. by apply placedAt_refl.
Qed.

Lemma shortenFrom_spec done_ rest :
  shortenFrom (done_ ++ rest) (length done_) (length rest - 1)
  = done_ ++ truncateAtFirstUnreachable rest.
Proof.
  revert done_. induction rest as [|x rest IH]; intros done_; simpl; [done|].
  rewrite Nat.sub_0_r. destruct rest as [|y rest].
  - simpl. by case_bool_decide.
  - simpl shortenFrom. rewrite list_lookup_middle by done.
    case_bool_decide as Hx.
    + rewrite Nat.add_1_r. erewrite take_S_r by (by apply list_lookup_middle).
      by rewrite take_app_length.
    + specialize (IH (done_ ++ [x])). rewrite length_app in IH. simpl in IH.
      rewrite Nat.sub_0_r, <-app_assoc in IH. simpl in IH. rewrite IH.
      by rewrite <-app_assoc.
Qed.

(** The loop of [visitBlock] cuts the list after its first element of
    type unreachable. *)
Lemma shorten_spec list_ : shorten list_ = truncateAtFirstUnreachable list_.
Proof. apply (shortenFrom_spec [] list_). Qed.

(** A walker whose tree is that of [self], up to the node [x] at
    [replacep] and the types of the nodes above. *)
Lemma placedAt_current self self' x :
  stack self' = stack self → replacep self' = replacep self →
  placedAt (replacep self) (body self) (body self') x →
  getCurrent self' = Some x ∧ elsewhereUnchanged self self'.
Proof.
  intros Hs Hrp Hpl. split.
  - unfold getCurrent. rewrite Hrp. by eapply placedAt_getAt.
  - split; [|done]. intros q Hq. by eapply placedAt_partWays.
Qed.

Lemma Loop_neq_body name body_ type : body_ ≠ Loop name body_ type.
Proof. intros H. apply (f_equal nodeCount) in H. simpl in H. lia. Qed.

(** C4: [visitBlock] run with [reachable] false on the block [replacep]
    points at, its list of more than one element.  The list is cut, in
    the tree, after its first element of type unreachable; a labelled
    block sets [reachable] to whether its label is in [reachableBreaks]
    and erases the label; a list left with one element, of type
    unreachable, has the block replaced, in the tree, by what the
    simplify-to-contents helper returns for the block as cut, and any
    other list has the type updater asked to retype the block as cut,
    which is left with the type the updater gives it.  Nothing else in
    the tree changes. *)
Theorem visitBlock_when_unreachable self name list_ type :
  getCurrent self = Some (Block name list_ type) →
  reachable self = false →
  1 < length list_ →
  let list' := truncateAtFirstUnreachable list_ in
  let curr := Block name list' type in
  ∃ self',
    visitBlock self name list_ type = Some self' ∧
    reachable self'
    = (if Name_is name then bool_decide (name ∈ reachableBreaks self)
       else false) ∧
    reachableBreaks self'
    = (if Name_is name then reachableBreaks self ∖ {[name]}
       else reachableBreaks self) ∧
    ifStack self' = ifStack self ∧
    elsewhereUnchanged self self' ∧
    if bool_decide (length list' = 1)
       && from_option isUnreachable false (list' !! 0)
    then
      getCurrent self' = Some (simplifyToContentsWithPossibleTypeChange curr) ∧
      typeUpdater self'
      = typeUpdater self
        ++ [tuNoteReplacement curr (simplifyToContentsWithPossibleTypeChange curr)]
    else
      getCurrent self'
      = Some (Block name list' (maybeUpdateTypeToUnreachable name list' type)) ∧
      typeUpdater self'
      = typeUpdater self ++ [tuMaybeUpdateTypeToUnreachable curr].
Proof.
  intros Hcur Hr Hlen. simpl. unfold visitBlock. rewrite Hr. simpl.
  rewrite (bool_decide_true (1 < length list_)) by done. rewrite shorten_spec.
  set (list' := truncateAtFirstUnreachable list_).
  unfold getCurrent in Hcur.
  assert (Hget : ∀ x, getAt (setAt (body self) (replacep self) x) (replacep self)
                      = Some x) by (intros; by eapply getAt_setAt).
  destruct (bool_decide (length list' = 1)
            && from_option isUnreachable false (list' !! 0)) eqn:Hone.
  - unfold replaceCurrent, getCurrent.
    destruct (Name_is name); simpl; rewrite Hget; simpl;
      (eexists; split; [reflexivity|];
       split; [simpl; by rewrite ?Hr|]; split; [done|]; split; [done|];
       match goal with
       | |- ?E ∧ ?G ∧ ?L => cut (G ∧ E); [intros [? ?]; by split_and!|]
       end;
       eapply placedAt_current; [done|done|]; simpl; solve_placed Hcur).
  - destruct (Name_is name); simpl;
      (eexists; split; [reflexivity|];
       split; [simpl; by rewrite ?Hr|]; split; [done|]; split; [done|];
       match goal with
       | |- ?E ∧ ?G ∧ ?L => cut (G ∧ E); [intros [? ?]; by split_and!|]
       end;
       eapply placedAt_current; [done|done|]; simpl; solve_placed Hcur).
Qed.

(** C5: [visitLoop] run on the loop [replacep] points at.  The label is
    erased from [reachableBreaks].  The loop is replaced by its body,
    in the tree, exactly when the body is of type unreachable and the
    break seeker finds no break to the label in it, and the type
    updater is told; otherwise the tree is left as it is.  A loop in
    whose body the break seeker finds a break to its label stays, also
    when the body is of type unreachable; the structural scan of the
    specification finds one whenever some [Break] or [Switch] in the
    body names the label. *)
Theorem visitLoop_replaces_iff self name body_ type :
  getCurrent self = Some (Loop name body_ type) →
  ∃ self',
    visitLoop self name body_ type = Some self' ∧
    reachableBreaks self'
    = (if Name_is name then reachableBreaks self ∖ {[name]}
       else reachableBreaks self) ∧
    (Name_is name = true → name ∉ reachableBreaks self') ∧
    reachable self' = reachable self ∧ ifStack self' = ifStack self ∧
    elsewhereUnchanged self self' ∧
    (getCurrent self' = Some body_
     ↔ typeOf body_ = unreachable ∧ BreakSeeker_has body_ name = false) ∧
    (getCurrent self' = Some body_ →
     typeUpdater self'
     = typeUpdater self ++ [tuNoteReplacement (Loop name body_ type) body_]) ∧
    (getCurrent self' ≠ Some body_ →
     getCurrent self' = Some (Loop name body_ type) ∧
     body self' = body self ∧ typeUpdater self' = typeUpdater self) ∧
    (BreakSeeker_has body_ name = true →
     getCurrent self' = Some (Loop name body_ type)) ∧
    (∀ p x, getAt body_ p = Some x → name ∈ ownTargets x →
            specBreakSeeker_has body_ name = true).
Proof.
  intros Hcur. unfold visitLoop, isUnreachable.
  set (self1 := if Name_is name then _ else self).
  assert (Hcur1 : getCurrent self1 = Some (Loop name body_ type))
    by (unfold self1; by destruct (Name_is name)).
  assert (Hbreaks : reachableBreaks self1
    = (if Name_is name then reachableBreaks self ∖ {[name]}
       else reachableBreaks self))
    by (unfold self1; by destruct (Name_is name)).
  assert (Hsame : reachable self1 = reachable self ∧ ifStack self1 = ifStack self
    ∧ body self1 = body self ∧ stack self1 = stack self
    ∧ replacep self1 = replacep self ∧ typeUpdater self1 = typeUpdater self)
    by (unfold self1; by destruct (Name_is name)).
  destruct Hsame as (Hr1 & Hi1 & Hb1 & Hs1 & Hp1 & Hl1).
  assert (Hseek : ∀ p x, getAt body_ p = Some x → name ∈ ownTargets x →
                         specBreakSeeker_has body_ name = true).
  { intros p x Hp Hx. unfold specBreakSeeker_has.
    apply (anyNode_getAt _ _ p x Hp). by apply bool_decide_eq_true. }
  assert (Herased : Name_is name = true → name ∉ reachableBreaks self1).
  { intros Hn. rewrite Hbreaks, Hn. set_solver. }
  clearbody self1.
  destruct (bool_decide (typeOf body_ = unreachable)
            && negb (BreakSeeker_has body_ name)) eqn:Hrep.
  - apply andb_true_iff in Hrep as [Hty%bool_decide_eq_true Hhas%negb_true_iff].
    destruct (replaceCurrent_spec self1 _ body_ Hcur1)
      as (self' & Hrc & Hget & (Hfr & Hs & Hp) & (Hr & Hb & Hi) & Hlog & _).
    exists self'. split_and!; try done; try congruence.
    all: try (by intros Hn; rewrite Hb; apply Herased).
    all: try (split; [|split; congruence]; intros q Hq; rewrite <-Hb1;
              apply Hfr; by rewrite Hp1).
    all: intros; congruence.
  - exists self1. split_and!; try done.
    + split; [|done]. intros q _. by rewrite Hb1.
    + split.
      * intros Hget. rewrite Hcur1 in Hget. simplify_eq.
        by destruct (Loop_neq_body name body_ type).
      * intros [Hty Hhas]. rewrite Hhas, bool_decide_true in Hrep by done.
        done.
    + intros Hget. rewrite Hcur1 in Hget. simplify_eq.
      by destruct (Loop_neq_body name body_ type).
Qed.

(** C6, as the code has it: when [visitBreak] runs on a break whose
    value and condition are not dead, the label is recorded in
    [reachableBreaks] if [reachable] is true at that moment, and not
    otherwise; an unconditional break then sets [reachable] to false.
    [visitSwitch], with value and condition not dead, records all
    targets and the default under the same proviso, and sets [reachable]
    to false. *)
Theorem break_targets_recorded_if_reachable self name targets default_
    value condition scrutinee type :
  isDead value = false →
  (isDead condition = false →
   ∃ self',
     visitBreak self name value condition type = Some self' ∧
     reachableBreaks self'
     = (if reachable self then {[name]} ∪ reachableBreaks self
        else reachableBreaks self) ∧
     reachable self'
     = (if condition is Some _ then reachable self else false) ∧
     body self' = body self ∧ ifStack self' = ifStack self ∧
     typeUpdater self' = typeUpdater self) ∧
  (isUnreachable scrutinee = false →
   ∃ self',
     visitSwitch self targets default_ value scrutinee type = Some self' ∧
     reachableBreaks self'
     = (if reachable self
        then {[default_]} ∪ (list_to_set targets ∪ reachableBreaks self)
        else reachableBreaks self) ∧
     reachable self' = false ∧
     body self' = body self ∧ ifStack self' = ifStack self ∧
     typeUpdater self' = typeUpdater self).
Proof.
  intros Hv. split.
  - intros Hc. unfold visitBreak. rewrite Hv, Hc. unfold addBreak.
    eexists. split; [done|].
    destruct (reachable self) eqn:Hr, condition; simpl; by rewrite ?Hr.
  - intros Hc. unfold visitSwitch. rewrite Hv, Hc, foldl_addBreak.
    unfold addBreak. eexists. split; [done|].
    destruct (reachable self) eqn:Hr; simpl; by rewrite ?Hr.
Qed.

(** *** The walk of an [If] *)

Lemma Walk_unreachable n e fl e' fl' :
  Walk n e fl e' fl' → fl_reachable fl = false →
  fl_reachable fl' = false ∧ fl_reachableBreaks fl' = fl_reachableBreaks fl.
Proof.
  intros HW Hr. inversion HW; subst; try congruence. by destruct e.
Qed.

(** C2, as the code has it: on an [If] scanned while reachable, the
    loop walks the condition, pushes the flag on [ifStack], walks
    [ifTrue], and with an else arm swaps the flag with the top of
    [ifStack] and walks [ifFalse]; [visitIf] then sets [reachable] to
    the flag after the arm walked last, or the top of [ifStack].  That
    top is the flag after [ifTrue] when there is an else arm, and the
    flag after the condition when there is none; an [If] without else
    leaves [reachable] as the condition left it. *)
Theorem if_joins_reachability self p k c t f ty :
  stack self = scan_task p :: k →
  getAt (body self) p = Some (If c t f ty) →
  reachable self = true →
  ∃ n1 afterCondition n2 afterTrue,
    exec (1 + n1) self = Some afterCondition ∧
    stack afterCondition
    = doAfterIfCondition_task p :: scan_task (p ++ [fIfTrue])
      :: elseTasks p f ++ doVisitIf p :: k ∧
    ifStack afterCondition = ifStack self ∧
    exec (1 + n2) afterCondition = Some afterTrue ∧
    stack afterTrue = elseTasks p f ++ doVisitIf p :: k ∧
    match f with
    | None =>
        ifStack afterTrue = reachable afterCondition :: ifStack self ∧
        ∃ final,
          exec 1 afterTrue = Some final ∧ stack final = k ∧
          ifStack final = ifStack self ∧
          reachable final = reachable afterTrue || reachable afterCondition ∧
          reachable final = reachable afterCondition
    | Some _ =>
        ∃ n3 afterFalse final,
          exec (1 + n3) afterTrue = Some afterFalse ∧
          stack afterFalse = doVisitIf p :: k ∧
          ifStack afterFalse = reachable afterTrue :: ifStack self ∧
          exec 1 afterFalse = Some final ∧ stack final = k ∧
          ifStack final = ifStack self ∧
          reachable final = reachable afterFalse || reachable afterTrue
    end.
Proof.
  intros Hk Hp Hr. rewrite (machine_eta self), Hk.
  set (root := body self) in *. set (fl := flagsOf self).
  set (rp := replacep self).
  change (ifStack self) with (fl_ifStack fl).
  assert (Hrfl : fl_reachable fl = true) by done.
  clearbody root fl rp. clear Hk Hr.
  set (k2 := elseTasks p f ++ doVisitIf p :: k).
  set (k1 := doAfterIfCondition_task p :: scan_task (p ++ [fIfTrue]) :: k2).
  destruct (exec_subtree c root (p ++ [fCondition]) k1 p fl)
    as (n1 & c' & fl1 & rp1 & root1 & HW1 & Hex1 & Hpl1 & _ & Hs1).
  { by rewrite (getAt_snoc _ _ _ _ Hp). }
  destruct (placedAt_child _ _ _ _ _ _ Hp Hpl1) as [ty1 Hp1]. simpl in Hp1.
  apply placedAt_getAt in Hp1.
  destruct (exec_subtree t root1 (p ++ [fIfTrue]) k2 p (afterIfCondition fl1))
    as (n2 & t' & fl2 & rp2 & root2 & HW2 & Hex2 & Hpl2 & _ & Hs2).
  { by rewrite (getAt_snoc _ _ _ _ Hp1). }
  destruct (placedAt_child _ _ _ _ _ _ Hp1 Hpl2) as [ty2 Hp2]. simpl in Hp2.
  apply placedAt_getAt in Hp2.
  simpl in Hs2.
  exists n1, (machine root1 k1 rp1 fl1), n2, (machine root2 k2 rp2 fl2).
  split_and!.
  - eapply exec_seq; [by eapply exec_scan_If|exact Hex1].
  - done.
  - done.
  - eapply exec_seq; [apply exec_afterIfCondition|exact Hex2].
  - done.
  - destruct f as [f|]; cbv beta iota.
    + destruct (afterIfElseTrue fl2) as [fl2'|] eqn:Hb; cycle 1.
      { unfold afterIfElseTrue in Hb. by rewrite Hs2 in Hb. }
      assert (Hfl2' : fl_ifStack fl2' = fl_reachable fl2 :: fl_ifStack fl1).
      { unfold afterIfElseTrue in Hb. rewrite Hs2 in Hb. by simplify_eq. }
      destruct (exec_subtree f root2 (p ++ [fIfFalse]) (doVisitIf p :: k) p fl2')
        as (n3 & f' & fl3 & rp3 & root3 & HW3 & Hex3 & Hpl3 & _ & Hs3).
      { by rewrite (getAt_snoc _ _ _ _ Hp2). }
      destruct (placedAt_child _ _ _ _ _ _ Hp2 Hpl3) as [ty3 Hp3]. simpl in Hp3.
      apply placedAt_getAt in Hp3.
      rewrite Hfl2' in Hs3.
      destruct (visitNode_If_total c' t' (Some f') ty3 fl3 _ _ Hs3)
        as (e2 & fl4 & Hv & Hs4 & Hr4).
      destruct (exec_doVisitIf root3 p k rp3 _ _ _ _ fl3 e2 fl4 Hp3 Hv)
        as (root4 & Hex4 & _).
      exists n3, (machine root3 (doVisitIf p :: k) rp3 fl3),
        (machine root4 k p fl4).
      split_and!.
      * eapply exec_seq; [by eapply exec_afterIfElseTrue|exact Hex3].
      * done.
      * simpl. congruence.
      * exact Hex4.
      * done.
      * simpl. congruence.
      * done.
    + split; [simpl; congruence|].
      destruct (visitNode_If_total c' t' None ty2 fl2 _ _ Hs2)
        as (e2 & fl3 & Hv & Hs3 & Hr3).
      destruct (exec_doVisitIf root2 p k rp2 _ _ _ _ fl2 e2 fl3 Hp2 Hv)
        as (root3 & Hex3 & _).
      exists (machine root3 k p fl3). split_and!.
      * exact Hex3.
      * done.
      * simpl. congruence.
      * done.
      * simpl. rewrite Hr3. destruct (fl_reachable fl1) eqn:Hr1.
        { by rewrite orb_true_r. }
        destruct (Walk_unreachable _ _ _ _ _ HW2) as [-> _]; done.
Qed.

(** *** Labels *)

Lemma scoped_inv env e :
  scoped env e = true →
  (∀ n, n ∈ ownTargets e → n ∈ env) ∧
  (∀ f c, getField e f = Some c →
          scoped (bindLabel (ownLabel e) env) c = true).
Proof.
  assert (Hall : ∀ env' l,
    (fix all (l : list Expression) : bool :=
       match l with [] => true | x :: l' => scoped env' x && all l' end) l = true →
    ∀ i c, l !! i = Some c → scoped env' c = true).
  { intros env'. induction l as [|x l IH]; intros H [|i] c; simpl; try done.
    - intros [= <-]. by apply andb_true_iff in H as [? _].
    - apply IH. by apply andb_true_iff in H as [_ ?]. }
  intros H.
  assert (Ht : forallb (λ n, bool_decide (n ∈ env)) (ownTargets e) = true).
  { destruct e; try done; simpl in H; by apply andb_true_iff in H as [? _]. }
  split.
  - intros n Hn. rewrite forallb_forall in Ht.
    apply list_elem_of_In, Ht in Hn. by apply bool_decide_eq_true in Hn.
  - intros f c Hf.
    destruct e; simpl in H;
      [ | | | apply andb_true_iff in H as [_ H]
      | apply andb_true_iff in H as [_ H] | .. ];
      destruct f; simpl in Hf; try done;
      repeat match goal with o : option Expression |- _ => destruct o end;
      simpl in *; simplify_eq;
      repeat match goal with
        | H : _ && _ = true |- _ => apply andb_true_iff in H as [? ?]
        end;
      try done; by eapply Hall.
Qed.

Lemma visitNode_breaks e fl e' fl' :
  visitNode e fl = Some (e', fl') →
  fl_reachableBreaks fl' ⊆ fl_reachableBreaks fl ∪ list_to_set (ownTargets e)
  ∧ (Name_is (ownLabel e) = true → ownLabel e ∉ fl_reachableBreaks fl').
Proof.
  unfold visitNode.
  destruct e; simpl;
    unfold visitBlock, visitIf, visitLoop, visitBreak, visitSwitch, visitCall,
      visitCallImport, visitHost, visitCallIndirect, handleCall, visitSetLocal,
      visitLoad, visitStore, visitUnary, visitBinary, visitSelect, visitDrop,
      visitReturn, visitUnreachable;
    rewrite ?foldl_addBreak;
    unfold replaceCurrent, getCurrent, mutateCurrent, addBreak, onNode;
    simpl; repeat case_match; simplify_eq/=; intros; simplify_eq/=;
    (split; [set_solver|try done; set_solver]).
Qed.

Lemma Walk_breaks n e fl e' fl' :
  Walk n e fl e' fl' →
  ∀ env, scoped env e = true →
  fl_reachableBreaks fl' ⊆ fl_reachableBreaks fl ∪ list_to_set env.
Proof.
  intros HW. revert n e fl e' fl' HW.
  apply (Walk_mut
    (λ n e fl e' fl' _,
      ∀ env, scoped env e = true →
      fl_reachableBreaks fl' ⊆ fl_reachableBreaks fl ∪ list_to_set env)
    (λ n e fs fl e' fl' _,
      ∀ env, NoDup fs →
      (∀ f c, f ∈ fs → getField e f = Some c → scoped env c = true) →
      fl_reachableBreaks fl' ⊆ fl_reachableBreaks fl ∪ list_to_set env
      ∧ ownLabel e' = ownLabel e ∧ ownTargets e' = ownTargets e)).
  - intros e fl _ env _. destruct e; simpl; set_solver.
  - intros n e fl e1 fl1 ty' e2 fl2 _ _ _ IH Hv env Hsc.
    destruct (scoped_inv _ _ Hsc) as [Ht Hch].
    destruct (IH (bindLabel (ownLabel e) env)) as (Hsub & Hl & Hts).
    { apply NoDup_childFields. }
    { intros f c _. apply Hch. }
    destruct (visitNode_breaks _ _ _ _ Hv) as [Hsub2 Hlbl].
    rewrite ownLabel_setType in Hlbl. rewrite ownTargets_setType in Hsub2.
    rewrite Hl, Hts in *. intros x Hx.
    assert (Hx' := Hsub2 x Hx).
    apply elem_of_union in Hx' as [Hx'|Hx'].
    + apply Hsub in Hx'. unfold bindLabel in Hx'.
      destruct (Name_is (ownLabel e)) eqn:Hn; [|done].
      rewrite list_to_set_cons in Hx'. 
      assert (x ≠ ownLabel e) by (intros ->; by apply Hlbl).
      clear -Hx' H. set_solver.
    + apply elem_of_list_to_set in Hx'. apply Ht in Hx'.
      clear -Hx'. set_solver.
  - intros n1 n2 c t ty fl c' fl1 t' fl2 ty' e2 fl3 _ _ IH1 _ IH2 Hv env Hsc.
    destruct (scoped_inv _ _ Hsc) as [_ Hch]. simpl in Hch.
    pose proof (IH1 env (Hch fCondition c eq_refl)) as H1.
    pose proof (IH2 env (Hch fIfTrue t eq_refl)) as H2. simpl in H2.
    destruct (visitNode_breaks _ _ _ _ Hv) as [H3 _]. simpl in H3.
    clear -H1 H2 H3. set_solver.
  - intros n1 n2 n3 c t f ty fl c' fl1 t' fl2 fl2' f' fl3 ty' e2 fl4 _
      _ IH1 _ IH2 Hb _ IH3 Hv env Hsc.
    destruct (scoped_inv _ _ Hsc) as [_ Hch]. simpl in Hch.
    pose proof (IH1 env (Hch fCondition c eq_refl)) as H1.
    pose proof (IH2 env (Hch fIfTrue t eq_refl)) as H2. simpl in H2.
    pose proof (IH3 env (Hch fIfFalse f eq_refl)) as H3.
    assert (Hb' : fl_reachableBreaks fl2' = fl_reachableBreaks fl2).
    { unfold afterIfElseTrue in Hb. destruct (fl_ifStack fl2); by simplify_eq. }
    rewrite Hb' in H3.
    destruct (visitNode_breaks _ _ _ _ Hv) as [H4 _]. simpl in H4.
    clear -H1 H2 H3 H4. set_solver.
  - intros e fl env _ _. split; [set_solver|done].
  - intros n m e f fs fl c c' fl1 e2 fl2 Hf _ IH1 _ IH2 env Hnd Hsc.
    apply NoDup_cons in Hnd as [Hnf Hnd].
    pose proof (IH1 env (Hsc f c ltac:(by left) Hf)) as H1.
    destruct (IH2 env Hnd) as (H2 & Hl & Ht).
    { intros f' c1 Hf' Hc1. rewrite getField_setField_ne in Hc1.
      - apply (Hsc f' c1); [by right|done].
      - by intros ->. }
    rewrite ownLabel_setField in Hl. rewrite ownTargets_setField in Ht.
    split; [clear -H1 H2; set_solver|done].
Qed.

(** The pass on a whole body: the loop runs the walk of the body, within
    the fuel [doWalkFunction] gives it. *)
Lemma doWalkFunction_Walk func_body :
  ∃ n e' fl' rp,
    Walk n func_body (startFlags func_body) e' fl' ∧
    doWalkFunction (create func_body) = Done (machine e' [] rp fl') ∧
    fl_ifStack fl' = [].
Proof.
  destruct (exec_subtree func_body func_body [] [] [] (startFlags func_body))
    as (n & e' & fl' & rp & root' & HW & Hex & Hpl & Hn & Hs); [done|].
  simpl in Hpl. subst root'.
  exists n, e', fl', rp. split_and!; [done| |done].
  unfold doWalkFunction. simpl. eapply walkLoop_exec; [exact Hex|done..].
Qed.

(** On a well-formed body the walk ends with [reachableBreaks] empty
    and the assertion of [visitFunction] holds. *)
Lemma walkFunction_wellFormed func_body :
  wellFormed func_body = true →
  ∃ n e' fl' rp,
    Walk n func_body (startFlags func_body) e' fl' ∧
    fl_reachableBreaks fl' = ∅ ∧
    doWalkFunction (create func_body) = Done (machine e' [] rp fl') ∧
    visitFunction (machine e' [] rp fl') = Done (machine e' [] rp fl') ∧
    walkFunction func_body = Done (machine e' [] rp fl').
Proof.
  intros Hwf.
  destruct (doWalkFunction_Walk func_body) as (n & e' & fl' & rp & HW & Hdo & _).
  pose proof (Walk_breaks _ _ _ _ _ HW [] Hwf) as Hsub. simpl in Hsub.
  assert (Hempty : fl_reachableBreaks fl' = ∅) by (clear -Hsub; set_solver).
  assert (Hvf : visitFunction (machine e' [] rp fl') = Done (machine e' [] rp fl')).
  { unfold visitFunction. simpl. by rewrite Hempty. }
  exists n, e', fl', rp. split_and!; [done..|].
  unfold walkFunction. by rewrite Hdo.
Qed.

(** C7: for a body in which every break and switch targets a label
    around it, the walk ends with [reachableBreaks] empty, and the
    assertion of [visitFunction] holds: the pass runs to its end. *)
Theorem reachableBreaks_empty_after_walk func_body :
  wellFormed func_body = true →
  ∃ self,
    doWalkFunction (create func_body) = Done self ∧
    reachableBreaks self = ∅ ∧
    visitFunction self = Done self ∧
    walkFunction func_body = Done self.
Proof.
  intros Hwf.
  destruct (walkFunction_wellFormed func_body Hwf)
    as (n & e' & fl' & rp & _ & Hempty & Hdo & Hvf & Hwalk).
  by exists (machine e' [] rp fl').
Qed.

(** *** The [ifStack] *)

Lemma visitNode_ifStack e fl e' fl' :
  visitNode e fl = Some (e', fl') →
  if isIf e then ∃ top, fl_ifStack fl = top :: fl_ifStack fl'
                        ∧ fl_reachable fl' = fl_reachable fl || top
  else fl_ifStack fl' = fl_ifStack fl.
Proof.
  intros Hv. destruct (isIf e) eqn:Hif.
  - destruct e; try done. revert Hv. unfold visitNode. simpl. unfold visitIf.
    simpl. destruct (fl_ifStack fl) as [|top rest]; [done|].
    unfold replaceCurrent, getCurrent, mutateCurrent. simpl.
    case_match; simpl; intros; simplify_eq/=; by exists top.
  - destruct (visitNode_total e fl Hif) as (e1 & fl1 & Hv1 & Hs).
    by simplify_eq.
Qed.

Lemma afterIfElseTrue_Some fl fl' :
  afterIfElseTrue fl = Some fl' →
  ∃ before rest, fl_ifStack fl = before :: rest
    ∧ fl_ifStack fl' = fl_reachable fl :: rest
    ∧ fl_reachable fl' = before
    ∧ fl_reachableBreaks fl' = fl_reachableBreaks fl
    ∧ fl_typeUpdater fl' = fl_typeUpdater fl.
Proof.
  unfold afterIfElseTrue. destruct (fl_ifStack fl) as [|b rest]; [done|].
  intros [= <-]. by exists b, rest.
Qed.

(** A walk leaves [ifStack] as it found it. *)
Lemma Walk_ifStack n e fl e' fl' :
  Walk n e fl e' fl' → fl_ifStack fl' = fl_ifStack fl.
Proof.
  intros HW. revert n e fl e' fl' HW.
  apply (Walk_mut
    (λ n e fl e' fl' _, fl_ifStack fl' = fl_ifStack fl)
    (λ n e fs fl e' fl' _, fl_ifStack fl' = fl_ifStack fl ∧ isIf e' = isIf e)).
  - intros e fl _. by destruct e.
  - intros n e fl e1 fl1 ty' e2 fl2 _ Hif _ [IH Hif1] Hv.
    apply visitNode_ifStack in Hv. rewrite isIf_setType, Hif1, Hif in Hv.
    congruence.
  - intros n1 n2 c t ty fl c' fl1 t' fl2 ty' e2 fl3 _ _ IH1 _ IH2 Hv.
    apply visitNode_ifStack in Hv as (top & Hs & _). simpl in *. congruence.
  - intros n1 n2 n3 c t f ty fl c' fl1 t' fl2 fl2' f' fl3 ty' e2 fl4 _
      _ IH1 _ IH2 Hb _ IH3 Hv.
    apply visitNode_ifStack in Hv as (top & Hs & _).
    apply afterIfElseTrue_Some in Hb as (b & rest & Hb1 & Hb2 & _).
    simpl in *. congruence.
  - done.
  - intros n m e f fs fl c c' fl1 e2 fl2 _ _ IH1 _ [IH2 Hif].
    split; [congruence|]. by rewrite Hif, isIf_setField.
Qed.

End Machine.

(** *** Settled bodies, with the collaborators of the specification *)

Section SpecCollaborators.
#[local] Existing Instance specCollaborators.

Lemma truncate_prefix l : truncateAtFirstUnreachable l `prefix_of` l.
Proof.
  induction l as [|x l IH]; simpl; [done|]. case_bool_decide.
  - by exists l.
  - by apply prefix_cons.
Qed.















End SpecCollaborators.

(** *** Runs of the pass on concrete bodies *)

Section ConcreteRuns.
#[local] Existing Instance specCollaborators.

Open Scope string_scope.

(** C2 as claimed fails: [(if (unreachable) (nop))] is entered while
    reachable, yet when [visitIf] is about to run the top of [ifStack] is
    false, the flag the condition left, and the code after this [If]
    without else is unreachable. *)
Lemma if_without_else_counterexample :
  (∃ atVisit final,
     reachable (enterWalk (create if_dead_condition)) = true ∧
     exec 5 (enterWalk (create if_dead_condition)) = Some atVisit ∧
     stack atVisit = [doVisitIf []] ∧
     ifStack atVisit = [false] ∧
     walkFunction if_dead_condition = Done final ∧
     reachable final = false) ∧
  ¬ (∀ condition ifTrue type final,
       walkFunction (If condition ifTrue None type) = Done final →
       reachable final = true).
Proof.
  assert (Hrun : ∃ final, walkFunction if_dead_condition = Done final
                          ∧ reachable final = false).
  { eexists. split; [vm_compute; reflexivity|reflexivity]. }
  destruct Hrun as (final & Hrun & Hfinal).
  split.
  - eexists _, final. split_and!; [reflexivity|vm_compute; reflexivity|
      reflexivity|reflexivity|exact Hrun|exact Hfinal].
  - intros H. specialize (H Unreachable Nop none final Hrun). congruence.
Qed.

(** C6 as claimed fails on
    [(block $out (result i32) (br $out (loop $l (result i32) (block (br_if $l (i32.const 1)) (unreachable)))))]:
    after twelve tasks the visit of the break to [$out] is on top of the
    stack, its value is not dead and it has no condition, and
    [reachable] is false; the visitor runs and leaves [reachableBreaks]
    empty. *)
Lemma break_not_recorded_counterexample :
  (wellFormed break_after_loop = true ∧
   ∃ self self',
     exec 12 (enterWalk (create break_after_loop)) = Some self ∧
     stack self = [doVisit [fList 0]; doVisit []] ∧
     getAt (body self) [fList 0]
     = Some (Break (Some "out") (Some endless_loop) None unreachable) ∧
     isDead (Some endless_loop) = false ∧
     reachable self = false ∧
     step self = Some self' ∧
     reachableBreaks self' = ∅) ∧
  ¬ (∀ self name value condition type self',
       isDead value = false → isDead condition = false →
       visitBreak self name value condition type = Some self' →
       name ∈ reachableBreaks self').
Proof.
  split.
  - split; [reflexivity|]. eexists _, _.
    split_and!; [vm_compute; reflexivity|reflexivity|reflexivity|reflexivity|
      reflexivity|vm_compute; reflexivity|reflexivity].
  - intros H.
    assert (Hvisit : ∃ self',
      visitBreak block_after_return (Some "out") (Some endless_loop) None
        unreachable = Some self' ∧ reachableBreaks self' = ∅).
    { eexists. split; [vm_compute; reflexivity|reflexivity]. }
    destruct Hvisit as (self' & Hvisit & Hempty).
    specialize (H block_after_return (Some "out") (Some endless_loop) None
                  unreachable self' eq_refl eq_refl Hvisit).
    rewrite Hempty in H. by apply not_elem_of_empty in H.
Qed.


Lemma if_joins_reachability_witness :
  let self := enterWalk (create if_return) in
  stack self = [scan_task []] ∧
  getAt (body self) [] = Some if_return ∧
  reachable self = true ∧
  ∃ n1 afterCondition n2 afterTrue,
    exec (1 + n1) self = Some afterCondition ∧
    stack afterCondition
    = [doAfterIfCondition_task []; scan_task [fIfTrue]; doVisitIf []] ∧
    ifStack afterCondition = ifStack self ∧
    exec (1 + n2) afterCondition = Some afterTrue ∧
    stack afterTrue = [doVisitIf []] ∧
    ifStack afterTrue = reachable afterCondition :: ifStack self ∧
    ∃ final,
      exec 1 afterTrue = Some final ∧ stack final = [] ∧
      ifStack final = ifStack self ∧
      reachable final = reachable afterTrue || reachable afterCondition ∧
      reachable final = reachable afterCondition.
Proof.
  split_and!; [reflexivity..|].
  exact (if_joins_reachability (enterWalk (create if_return)) [] []
           (Const 1 i32) (Return None) None none eq_refl eq_refl eq_refl).
Defined.

Lemma scan_when_unreachable_witness :
  getAt (body dead_nop) [fList 1] = Some Nop ∧
  reachable dead_nop = false ∧
  ∃ self',
    scan dead_nop [fList 1] = Some self' ∧
    stack self' = stack dead_nop ∧
    getAt (body self') [fList 1] = Some Unreachable ∧
    getAt (body self') [fList 0] = Some (Return None) ∧
    typeUpdater self' = [tuNoteRecursiveRemoval Nop].
Proof.
  split_and!; [reflexivity..|].
  destruct (scan_when_unreachable dead_nop [fList 1] Nop eq_refl eq_refl)
    as (self' & Hscan & Hstack & _ & _ & _ & Hget & Hframe & _ & _ & Hnew).
  destruct (Hnew ltac:(discriminate)) as [_ Hlog].
  exists self'. split_and!; [exact Hscan|exact Hstack|exact Hget| |exact Hlog].
  rewrite (Hframe [fList 0]); [reflexivity|].
  exists [], (fList 1), (fList 0), [], []. split_and!; [reflexivity..|discriminate].
Defined.

Lemma visitBlock_when_unreachable_witness :
  getCurrent block_after_return
  = Some (Block (Some "b") [Return None; Unreachable] none) ∧
  reachable block_after_return = false ∧
  1 < length [Return None; Unreachable] ∧
  ∃ self',
    visitBlock block_after_return (Some "b") [Return None; Unreachable] none
    = Some self' ∧
    getCurrent self' = Some (Return None) ∧
    reachable self' = false.
Proof.
  split_and!; [reflexivity|reflexivity|exact (le_n 2)|].
  destruct (visitBlock_when_unreachable block_after_return (Some "b")
              [Return None; Unreachable] none eq_refl eq_refl (le_n 2))
    as (self' & Hvisit & Hr & _ & _ & _ & Hcase).
  exists self'. split_and!; [exact Hvisit| |exact Hr].
  exact (proj1 Hcase).
Defined.

Lemma call_like_evaluation_order_witness :
  getCurrent (atVisit call_dead_operand) = Some call_dead_operand ∧
  ∃ self',
    visit (atVisit call_dead_operand) call_dead_operand = Some self' ∧
    getCurrent self' = Some (Block None [Drop call_f none; Unreachable] i32).
Proof.
  split; [reflexivity|].
  destruct (call_like_evaluation_order (atVisit call_dead_operand)
              call_dead_operand (Some "g") 0 [call_f; Unreachable] i32
              (or_introl eq_refl) eq_refl)
    as (dead & self' & Hdead & _ & _ & _ & Hvisit & Hget & _).
  exists self'. split; [exact Hvisit|].
  injection Hdead as <-. exact Hget.
Defined.

Lemma visitLoop_replaces_iff_witness :
  getCurrent (atVisit loop_unreachable) = Some loop_unreachable ∧
  ∃ self',
    visitLoop (atVisit loop_unreachable) (Some "L") Unreachable none
    = Some self' ∧
    getCurrent self' = Some Unreachable ∧
    reachableBreaks self' = reachableBreaks (atVisit loop_unreachable) ∖ {[Some "L"]}.
Proof.
  split; [reflexivity|].
  destruct (visitLoop_replaces_iff (atVisit loop_unreachable) (Some "L")
              Unreachable none eq_refl)
    as (self' & Hvisit & Hbreaks & _ & _ & _ & _ & Hiff & _).
  exists self'. split_and!; [exact Hvisit| |exact Hbreaks].
  apply Hiff. split; reflexivity.
Defined.

Lemma break_targets_recorded_if_reachable_witness :
  isDead None = false ∧
  ∃ self',
    visitBreak block_after_return (Some "b") None None unreachable = Some self' ∧
    reachableBreaks self' = reachableBreaks block_after_return ∧
    reachable self' = false.
Proof.
  split; [reflexivity|].
  destruct (proj1 (break_targets_recorded_if_reachable block_after_return
                     (Some "b") [] None None None Nop unreachable eq_refl)
              eq_refl)
    as (self' & Hvisit & Hbreaks & Hreach & _).
  exists self'. split_and!; [exact Hvisit|exact Hbreaks|exact Hreach].
Defined.

Lemma reachableBreaks_empty_after_walk_witness :
  wellFormed break_after_loop = true ∧
  ∃ self,
    doWalkFunction (create break_after_loop) = Done self ∧
    reachableBreaks self = ∅ ∧
    visitFunction self = Done self ∧
    walkFunction break_after_loop = Done self.
Proof.
  split; [reflexivity|].
  exact (reachableBreaks_empty_after_walk break_after_loop eq_refl).
Defined.


(** The bodies the pass returns for the scenarios of the specification
    other than the third, and for [(block (return) (nop))], are
    settled; those it returns for the third,
    [(i32.add (call $f) (unreachable))], and for a [call_indirect]
    without operands and with a dead target are not. *)
Lemma settled_results :
  let settledAfter := λ func_body,
    runPass func_body ≫= λ once, Some (settled once) in
  settledAfter (Block (Some "b") [call_f; Unreachable] i32) = Some true ∧
  settledAfter add_dead_left = Some true ∧
  settledAfter (If (Const 1 i32) (Return (Some (Const 5 i32)))
                  (Some (Const 7 i32)) i32) = Some true ∧
  settledAfter block_break_call = Some true ∧
  settledAfter (Call (Some "f") [Unreachable; Call (Some "g") [] i32] i32)
  = Some true ∧
  settledAfter loop_unreachable = Some true ∧
  settledAfter (Loop (Some "L")
                  (Block None [Break (Some "L") None None unreachable;
                               Unreachable] none) none) = Some true ∧
  settledAfter (Block None [Return None; Nop] none) = Some true ∧
  settledAfter add_dead_right = Some false ∧
  settledAfter call_indirect_dead_target = Some false.
Proof. split_and!; vm_compute; reflexivity. Qed.

End ConcreteRuns.

End DCEFacts.

(** * Further properties *)

(** ** Module I/O *)

Module WasmIOMore.
Import WasmIO WasmIOFacts.

Open Scope string_scope.

(** [ModuleReader::read] looks at the file only through its name: it
    calls [readBinary] exactly for the names ending in [.wasm], and
    [readText] for every other name, whatever the file holds; so a
    module is read back with the reader that matches the writer
    [ModuleWriter::write] chose for the same name. *)
Theorem read_agrees_with_write read_file filename :
  (ModuleReader_read read_file filename = Some (readBinary filename)
   ↔ ∃ stem, filename = stem +:+ ".wasm") ∧
  (ModuleReader_read read_file filename = Some (readBinary filename)
   ↔ ModuleWriter_write filename = Some (writeBinary filename)) ∧
  (ModuleReader_read read_file filename = Some (readText filename)
   ↔ ModuleWriter_write filename = Some (writeText filename)) ∧
  (∀ other_files, ModuleReader_read other_files filename
                  = ModuleReader_read read_file filename).
Proof.
  destruct (getSuffix_spec filename) as (suffix & Hget & Hspec).
  assert (Hr : ∀ rf, ModuleReader_read rf filename
    = Some (if decide (suffix = "wasm") then readBinary filename
            else readText filename)).
  { intros rf. unfold ModuleReader_read. rewrite Hget. simpl.
    destruct (decide (suffix = "wasm")) as [->|Hne]; [done|].
    apply String.eqb_neq in Hne as ->. rewrite magicCheck_false.
    by destruct (String.eqb suffix "wast"). }
  assert (Hw : ModuleWriter_write filename
    = Some (if decide (suffix = "wasm") then writeBinary filename
            else writeText filename)).
  { unfold ModuleWriter_write. rewrite Hget. simpl.
    destruct (decide (suffix = "wasm")) as [->|Hne]; [done|].
    by apply String.eqb_neq in Hne as ->. }
  split_and!.
  - rewrite Hr. destruct (decide (suffix = "wasm")) as [->|Hne].
    + split; [|done]. intros _.
      destruct Hspec as [[_ ?]|(stem & -> & _)]; [done|]. by exists stem.
    + split; [done|]. intros [stem ->]. exfalso. apply Hne.
      apply (isSuffixOf_fun (stem +:+ ".wasm")); [done|].
      right. by exists stem.
  - rewrite Hr, Hw. by destruct (decide (suffix = "wasm")).
  - rewrite Hr, Hw. by destruct (decide (suffix = "wasm")).
  - intros rf. by rewrite !Hr.
Qed.

(** [getSuffix] never throws: the position it hands to [substr] is
    within the name.  It returns the text after the last dot of the
    name, in which there is no dot, and the empty string for a name
    without dot; nothing else is the text after the last dot. *)
Theorem getSuffix_after_last_dot filename :
  ∃ suffix,
    getSuffix filename = Some suffix ∧
    hasChar "." suffix = false ∧
    (hasChar "." filename = false ∧ suffix = ""
     ∨ ∃ stem, filename = stem +:+ "." +:+ suffix) ∧
    (∀ other, isSuffixOf filename other → other = suffix).
Proof.
  destruct (getSuffix_spec filename) as (suffix & Hget & Hspec).
  exists suffix. split_and!; [done| | |].
  - by destruct Hspec as [[_ ->]|(stem & _ & Hno)].
  - destruct Hspec as [?|(stem & -> & _)]; [by left|right; by exists stem].
  - intros other Hother. by apply (isSuffixOf_fun filename).
Qed.

End WasmIOMore.

(** ** The dead code elimination pass *)

Module DCEMore.
Import DCE DCEFacts.

Section Visitors.
Context {collab : Collaborators}.

Lemma operator_followRule self a b c type :
  visitSetLocal self a = followRule self [a] type ∧
  visitLoad self a = followRule self [a] type ∧
  visitUnary self a = followRule self [a] type ∧
  visitDrop self a = followRule self [a] type ∧
  visitStore self a b type = followRule self [a; b] type ∧
  visitBinary self a b type = followRule self [a; b] type ∧
  visitSelect self a b c type = followRule self [a; b; c] type.
Proof.
  unfold visitSetLocal, visitLoad, visitUnary, visitDrop, visitStore,
    visitBinary, visitSelect, followRule, evaluationOrderRule, isUnreachable.
  simpl. split_and!; repeat case_bool_decide; done.
Qed.

(** The visitors of the operator nodes, written one by one in the
    source, run on the node [replacep] points at.  Each of them follows
    the evaluation-order rule of [handleCall] over the node's operands
    in evaluation order: [value] for [SetLocal], [Unary] and [Drop],
    [ptr] for [Load], [ptr; value] for [Store], [left; right] for
    [Binary] and [ifTrue; ifFalse; condition] for [Select].  With the
    first operand of type unreachable at index [k] the node is replaced,
    in the tree, by that operand when [k = 0] and otherwise by a block,
    finalized to the node's type, of the [k] operands before it, each in
    a [Drop], and the dead operand; nothing else in the tree changes,
    [reachable], [reachableBreaks] and [ifStack] stay, and the type
    updater is told of the replacement.  With no such operand the
    walker is left as it is. *)
Theorem operator_visitors_follow_rule self curr index op a b c type :
  getCurrent self = Some curr →
  (curr = SetLocal index a type →
   rewrittenByRule self curr [a] type (visit self curr)) ∧
  (curr = Load a type →
   rewrittenByRule self curr [a] type (visit self curr)) ∧
  (curr = Unary op a type →
   rewrittenByRule self curr [a] type (visit self curr)) ∧
  (curr = Drop a type →
   rewrittenByRule self curr [a] type (visit self curr)) ∧
  (curr = Store a b type →
   rewrittenByRule self curr [a; b] type (visit self curr)) ∧
  (curr = Binary op a b type →
   rewrittenByRule self curr [a; b] type (visit self curr)) ∧
  (curr = Select a b c type →
   rewrittenByRule self curr [a; b; c] type (visit self curr)).
Proof.
  intros Hcur.
  destruct (operator_followRule self a b c type)
    as (HSetLocal & HLoad & HUnary & HDrop & HStore & HBinary & HSelect).
  split_and!; intros ->; simpl.
  - rewrite HSetLocal. by apply followRule_rewritten.
  - rewrite HLoad. by apply followRule_rewritten.
  - rewrite HUnary. by apply followRule_rewritten.
  - rewrite HDrop. by apply followRule_rewritten.
  - rewrite HStore. by apply followRule_rewritten.
  - rewrite HBinary. by apply followRule_rewritten.
  - rewrite HSelect. by apply followRule_rewritten.
Qed.

Lemma visitCallIndirect_eq self operands target type :
  visitCallIndirect self operands target type
  = match firstUnreachable operands with
    | Some _ => followRule self operands type
    | None =>
        let list_ := (makeDrop <$> operands) ++ [target] in
        if bool_decide (typeOf target = unreachable)
        then replaceCurrent self (Block None list_ (Block_finalize None list_ type))
        else Some self
    end.
Proof.
  unfold visitCallIndirect.
  pose proof (handleCallFrom_rule operands type [] operands eq_refl) as Hr.
  simpl in Hr.
  destruct (firstUnreachable operands) as [k|] eqn:Hk.
  - destruct (firstUnreachable_Some _ _ Hk) as (dead & Hd & _).
    unfold followRule, evaluationOrderRule, handleCall.
    rewrite Hr, Hk. simpl in *. rewrite Hd. simpl.
    by destruct (replaceCurrent self _).
  - unfold handleCall. rewrite Hr. simpl. unfold isUnreachable, newBlock.
    assert (Hdrops : drop <$> operands = makeDrop <$> operands).
    { apply list_fmap_ext. intros i x Hx. apply drop_reachable.
      by eapply firstUnreachable_None. }
    by rewrite Hdrops.
Qed.

(** [visitCallIndirect], run on the call [replacep] points at.  With an
    operand of type unreachable the call follows the evaluation-order
    rule over its operands and the target is not looked at.  With none,
    a target of type unreachable has the call replaced, in the tree, by
    a block of all the operands, each in a [Drop], and the target, one
    element more than there are operands: a block of the target alone
    when the call has no operands, not the target itself; nothing else
    in the tree changes, the flags stay, and the type updater is told
    of the replacement.  Otherwise the walker is left as it is. *)
Theorem visitCallIndirect_rule self operands target type :
  getCurrent self = Some (CallIndirect operands target type) →
  match firstUnreachable operands with
  | Some _ =>
      rewrittenByRule self (CallIndirect operands target type) operands type
        (visit self (CallIndirect operands target type))
  | None =>
      let curr := CallIndirect operands target type in
      let list_ := (makeDrop <$> operands) ++ [target] in
      let replacement := Block None list_ (Block_finalize None list_ type) in
      length list_ = length operands + 1 ∧
      if bool_decide (typeOf target = unreachable)
      then ∃ self',
             visit self curr = Some self' ∧
             getCurrent self' = Some replacement ∧
             elsewhereUnchanged self self' ∧ sameFlags self self' ∧
             typeUpdater self'
             = typeUpdater self ++ [tuNoteReplacement curr replacement]
      else visit self curr = Some self
  end.
Proof.
  intros Hcur. simpl. rewrite visitCallIndirect_eq.
  pose proof (followRule_rewritten self _ operands type Hcur) as Hrule.
  destruct (firstUnreachable operands) as [k|] eqn:Hk; [done|].
  simpl. split; [by rewrite length_app, length_fmap|].
  case_bool_decide as Ht; [|done].
  destruct (replaceCurrent_spec self _
              (Block None ((makeDrop <$> operands) ++ [target])
                 (Block_finalize None ((makeDrop <$> operands) ++ [target]) type))
              Hcur)
    as (self' & Hrep & Hget & Hels & Hfl & Hlog & _).
  by exists self'.
Qed.

Lemma break_switch_return_followRule self name targets default_ value
    condition scrutinee type :
  (isDead value || isDead condition = true →
   visitBreak self name value condition type
   = followRule self (present value ++ present condition) type
   ∧ is_Some (firstUnreachable (present value ++ present condition))) ∧
  (isDead value || isUnreachable scrutinee = true →
   visitSwitch self targets default_ value scrutinee type
   = followRule self (present value ++ [scrutinee]) type
   ∧ is_Some (firstUnreachable (present value ++ [scrutinee]))) ∧
  (isDead value = true →
   visitReturn self value = followRule self (present value) type
   ∧ is_Some (firstUnreachable (present value))).
Proof.
  unfold visitBreak, visitSwitch, visitReturn, followRule, evaluationOrderRule,
    isUnreachable.
  split_and!.
  - destruct value as [v|], condition as [c|]; simpl;
      repeat case_bool_decide; done.
  - destruct value as [v|]; simpl; repeat case_bool_decide; done.
  - destruct value as [v|]; simpl; repeat case_bool_decide; done.
Qed.

(** A [Break], [Switch] or [Return] with a dead operand, visited as the
    node [replacep] points at, follows the evaluation-order rule over
    the operands it has, the value before the condition, and one of
    them is of type unreachable: the node is replaced, in the tree, by
    what the rule gives, nothing else in the tree changes, and the type
    updater is told of the replacement; the label of the break, the
    targets of the switch are not recorded, and [reachable] and
    [ifStack] stay as they are. *)
Theorem dead_operand_of_break_switch_return self curr name targets default_
    value condition scrutinee type :
  getCurrent self = Some curr →
  (curr = Break name value condition type →
   isDead value || isDead condition = true →
   is_Some (firstUnreachable (present value ++ present condition)) ∧
   rewrittenByRule self curr (present value ++ present condition) type
     (visit self curr)) ∧
  (curr = Switch targets default_ value scrutinee type →
   isDead value || isUnreachable scrutinee = true →
   is_Some (firstUnreachable (present value ++ [scrutinee])) ∧
   rewrittenByRule self curr (present value ++ [scrutinee]) type
     (visit self curr)) ∧
  (curr = Return value →
   isDead value = true →
   is_Some (firstUnreachable (present value)) ∧
   rewrittenByRule self curr (present value) type (visit self curr)).
Proof.
  intros Hcur.
  destruct (break_switch_return_followRule self name targets default_ value
              condition scrutinee type) as (HBreak & HSwitch & HReturn).
  split_and!; intros -> Hdead; simpl.
  - destruct (HBreak Hdead) as [-> Hsome]. split; [done|].
    by apply followRule_rewritten.
  - destruct (HSwitch Hdead) as [-> Hsome]. split; [done|].
    by apply followRule_rewritten.
  - destruct (HReturn Hdead) as [-> Hsome]. split; [done|].
    by apply followRule_rewritten.
Qed.

(** What a visitor may do to the walker's fields.  A visitor that runs
    while [reachable] is false can set it to true in two ways only: as
    [visitBlock] of a labelled block whose label is in
    [reachableBreaks], or as [visitIf] with true on top of [ifStack];
    the only visitors that set it to false are those of a [Break]
    without condition, a [Switch], a [Return] and an [Unreachable].
    [reachableBreaks] gains nothing but the targets of the visited
    [Break] or [Switch], and nothing at all while [reachable] is false;
    it loses nothing but the label of the visited [Block] or [Loop].
    Only [visitIf] touches [ifStack]. *)
Theorem visitor_flag_discipline self curr self' :
  visit self curr = Some self' →
  (reachable self = false → reachable self' = true →
   (∃ name list_ type, curr = Block name list_ type ∧ Name_is name = true
                       ∧ name ∈ reachableBreaks self)
   ∨ (∃ c t f ty rest, curr = If c t f ty ∧ ifStack self = true :: rest)) ∧
  (reachable self = true → reachable self' = false →
   match curr with
   | Break _ _ None _ | Switch _ _ _ _ _ | Return _ | Unreachable => True
   | _ => False
   end) ∧
  reachableBreaks self' ⊆ reachableBreaks self ∪ list_to_set (ownTargets curr) ∧
  (reachable self = false → reachableBreaks self' ⊆ reachableBreaks self) ∧
  (∀ name, name ∈ reachableBreaks self → name ≠ ownLabel curr →
           name ∈ reachableBreaks self') ∧
  (isIf curr = false → ifStack self' = ifStack self).
Proof.
  assert (Hcalls : ∀ operands type,
    fst <$> handleCall self operands type = followRule self operands type)
    by apply handleCall_followRule.
  destruct curr; simpl;
    unfold visitCall, visitCallImport, visitHost;
    rewrite ?Hcalls, ?visitCallIndirect_eq;
    unfold visitBlock, visitIf, visitLoop, visitBreak, visitSwitch,
      visitSetLocal, visitLoad, visitStore, visitUnary, visitBinary,
      visitSelect, visitDrop, visitReturn, visitUnreachable;
    rewrite ?foldl_addBreak; unfold addBreak, mutateCurrent; simpl;
    repeat case_match; intros Hv;
    repeat match goal with
      | H : replaceCurrent _ _ = Some _ |- _ =>
          apply replaceCurrent_flags in H as (? & ? & ?)
      | H : followRule _ _ _ = Some _ |- _ =>
          apply followRule_flags in H as (? & ? & ?)
      end;
    simplify_eq/=;
    repeat match goal with
      | H : reachable self' = _ |- _ => rewrite H; clear H
      | H : reachableBreaks self' = _ |- _ => rewrite H; clear H
      | H : ifStack self' = _ |- _ => rewrite H; clear H
      end;
    try congruence;
    (split_and!;
     [ intros Hr Ht; rewrite ?Hr in *; simplify_eq/=;
       first
         [ left; eexists _, _, _; split_and!; [done..|];
           by eapply bool_decide_eq_true_1
         | right; eexists _, _, _, _, _; split; [done|];
           repeat match goal with H : ifStack self = _ |- _ => rewrite H end;
           by f_equal
         | done ]
     | intros Hr Ht; rewrite ?Hr in *; simplify_eq/=; first [done|congruence]
     | set_solver
     | intros Hr; rewrite ?Hr in *; simplify_eq/=; set_solver
     | set_solver
     | try done ]).
Qed.

End Visitors.

Section Pointers.
Context {collab : Collaborators}.

Lemma getAt_setAt_partWays root p q x :
  partWays p q → getAt (setAt root p x) q = getAt root q.
Proof.
  intros (common & f & g & p' & q' & -> & -> & Hne).
  revert root. induction common as [|h common IH]; intros root; simpl.
  - destruct (getField root f) as [c|]; [|done].
    by rewrite getField_setField_ne.
  - destruct (getField root h) as [c|] eqn:Hh; simpl; [|by rewrite Hh].
    erewrite getField_setField_eq by done. simpl. apply IH.
Qed.

(** [replaceCurrent] stores through [replacep] and nowhere else: it
    fails only on a pointer that points at nothing; after it the
    pointer holds the new expression, every pointer that parts ways
    with [replacep] still holds what it held, the walker's flags, stack
    and [replacep] are as before, and the type updater has been told of
    exactly this replacement. *)
Theorem replaceCurrent_frame self expression :
  (replaceCurrent self expression = None ↔ getCurrent self = None) ∧
  ∀ self', replaceCurrent self expression = Some self' →
    getCurrent self' = Some expression ∧
    (∀ q, partWays (replacep self) q →
          getAt (body self') q = getAt (body self) q) ∧
    sameFlags self self' ∧
    stack self' = stack self ∧ replacep self' = replacep self ∧
    ∃ old, getCurrent self = Some old ∧
           typeUpdater self' = typeUpdater self ++ [tuNoteReplacement old expression].
Proof.
  destruct (getCurrent self) as [old|] eqn:Hold.
  - destruct (replaceCurrent_spec self old expression Hold)
      as (self1 & Hrep & Hget & (Hframe & Hstack & Hrp) & Hfl & Hlog & _).
    rewrite Hrep. split; [done|]. intros self' [= <-].
    split_and!; try done. by exists old.
  - unfold replaceCurrent. rewrite Hold. simpl. split; [done|]. by intros self'.
Qed.

(** The loop on one subtree.  With the scan of a node on top of the
    stack, the loop comes back to the rest of the stack within four
    tasks per node of the subtree, without failing; the tree is the one
    it was but for the subtree at the node and the types of the nodes
    above it, which the type updater may have set: every pointer that
    parts ways with the node's holds what it held; and [ifStack] is as
    it was.  If [reachable] was false, the node is an [Unreachable]
    now, and [reachable] and [reachableBreaks] are as they were. *)
Theorem subtree_walk_frame self p k e :
  stack self = scan_task p :: k →
  getAt (body self) p = Some e →
  ∃ n self' e',
    exec n self = Some self' ∧
    n ≤ 4 * nodeCount e ∧
    stack self' = k ∧
    placedAt p (body self) (body self') e' ∧
    getAt (body self') p = Some e' ∧
    (∀ q, partWays p q → getAt (body self') q = getAt (body self) q) ∧
    ifStack self' = ifStack self ∧
    (reachable self = false →
     e' = Unreachable ∧ reachable self' = false ∧
     reachableBreaks self' = reachableBreaks self).
Proof.
  intros Hk Hp. rewrite (machine_eta self), Hk.
  destruct (exec_subtree e (body self) p k (replacep self) (flagsOf self) Hp)
    as (n & e' & fl' & rp' & root' & HW & Hex & Hpl & Hn & Hs).
  exists n, (machine root' k rp' fl'), e'.
  split_and!; try done.
  - by eapply placedAt_getAt.
  - intros q Hq. by eapply placedAt_partWays.
  - intros Hr. destruct (Walk_unreachable _ _ _ _ _ HW Hr) as [Hr' Hb].
    split_and!; [|done..].
    inversion HW; subst; simpl in *; try congruence. by destruct e.
Qed.

(** The walk of a whole body never fails and never runs short of fuel:
    [ifStack.back()] is never called on an empty stack, the assertion of
    [doAfterIfElseTrue] holds, and every task finds its node; the loop
    ends with the task stack and [ifStack] empty.  Of the pass only the
    assertion of [visitFunction] can fail, and it does exactly when a
    label is left in [reachableBreaks]. *)
Theorem walk_never_fails func_body :
  ∃ self,
    doWalkFunction (create func_body) = Done self ∧
    stack self = [] ∧
    ifStack self = [] ∧
    (walkFunction func_body = Done self ∧ reachableBreaks self = ∅
     ∨ walkFunction func_body = Aborted ∧ reachableBreaks self ≠ ∅).
Proof.
  destruct (doWalkFunction_Walk func_body) as (n & e' & fl' & rp & _ & Hdo & Hs).
  exists (machine e' [] rp fl'). split_and!; [done..|].
  unfold walkFunction. rewrite Hdo. unfold visitFunction. simpl.
  case_bool_decide as Hsz.
  - left. split; [done|]. by apply size_empty_inv, leibniz_equiv in Hsz.
  - right. split; [done|]. intros Hempty. apply Hsz.
    by rewrite Hempty, size_empty.
Qed.

End Pointers.

(** *** The loop of [visitBlock] *)

Lemma truncate_idem l :
  truncateAtFirstUnreachable (truncateAtFirstUnreachable l)
  = truncateAtFirstUnreachable l.
Proof.
  induction l as [|x l IH]; simpl; [done|]. case_bool_decide as Hx; simpl.
  - by rewrite bool_decide_true.
  - by rewrite bool_decide_false, IH.
Qed.

Lemma truncate_before_last l i x :
  i + 1 < length (truncateAtFirstUnreachable l) →
  truncateAtFirstUnreachable l !! i = Some x → typeOf x ≠ unreachable.
Proof.
  revert i. induction l as [|y l IH]; intros i; simpl; [lia|].
  case_bool_decide as Hy; simpl; [lia|].
  destruct i as [|i]; simpl.
  - by intros _ [= <-].
  - intros Hlen. apply IH. lia.
Qed.

Lemma truncate_shorter l :
  length (truncateAtFirstUnreachable l) < length l →
  ∃ x, last (truncateAtFirstUnreachable l) = Some x ∧ typeOf x = unreachable.
Proof.
  induction l as [|y l IH]; simpl; [lia|].
  case_bool_decide as Hy; simpl.
  - intros _. by exists y.
  - intros Hlen. destruct IH as (x & Hx & Hty); [lia|].
    exists x. split; [|done].
    destruct (truncateAtFirstUnreachable l); [done|]. done.
Qed.

(** The loop of [visitBlock] only cuts: what it leaves is a prefix of
    the list, not empty unless the list was; running it again cuts
    nothing more; no element it leaves before the last is of type
    unreachable; and when it has cut something, the last element it
    leaves is of type unreachable. *)
Theorem shorten_cuts_after_first_unreachable list_ :
  shorten list_ `prefix_of` list_ ∧
  (list_ ≠ [] → shorten list_ ≠ []) ∧
  shorten (shorten list_) = shorten list_ ∧
  (∀ i x, i + 1 < length (shorten list_) → shorten list_ !! i = Some x →
          typeOf x ≠ unreachable) ∧
  (length (shorten list_) < length list_ →
   ∃ x, last (shorten list_) = Some x ∧ typeOf x = unreachable).
Proof.
  rewrite !shorten_spec. split_and!.
  - apply truncate_prefix.
  - destruct list_ as [|x l]; [done|]. intros _. simpl. by case_bool_decide.
  - apply truncate_idem.
  - apply truncate_before_last.
  - apply truncate_shorter.
Qed.


(** *** Breaks stay in scope *)

Lemma scoped_intro env e :
  (∀ n, n ∈ ownTargets e → n ∈ env) →
  (∀ f c, getField e f = Some c →
          scoped (bindLabel (ownLabel e) env) c = true) →
  scoped env e = true.
Proof.
  assert (Hall : ∀ env' l,
    (∀ i c, l !! i = Some c → scoped env' c = true) →
    (fix all (l : list Expression) : bool :=
       match l with [] => true | x :: l' => scoped env' x && all l' end) l = true).
  { intros env'. induction l as [|x l IH]; intros H; [done|].
    apply andb_true_iff. split; [by apply (H 0)|].
    apply IH. intros i c. apply (H (S i)). }
  intros Ht Hch.
  assert (Htargets : forallb (λ n, bool_decide (n ∈ env)) (ownTargets e) = true).
  { apply forallb_forall. intros n Hn%list_elem_of_In.
    apply bool_decide_eq_true. by apply Ht. }
  destruct e; simpl in *; rewrite ?Htargets; simpl;
    repeat match goal with o : option Expression |- _ => destruct o end;
    rewrite ?andb_true_iff; repeat split;
    try (apply Hall; intros i c; first [apply (Hch (fList i))|apply (Hch (fOperand i))]);
    try done;
    first [by apply (Hch fCondition)|by apply (Hch fIfTrue)
          |by apply (Hch fIfFalse)|by apply (Hch fBody)|by apply (Hch fValue)
          |by apply (Hch fTarget)|by apply (Hch fPtr)|by apply (Hch fLeft)
          |by apply (Hch fRight)].
Qed.

Lemma getField_nodeCount e f c :
  getField e f = Some c → nodeCount c < nodeCount e.
Proof.
  assert (Hs : ∀ l i, l !! i = Some c →
    nodeCount c ≤ (fix sizes (l : list Expression) : nat :=
       match l with [] => 0 | x :: l' => nodeCount x + sizes l' end) l).
  { induction l as [|x l IH]; intros [|i]; simpl; try done.
    - intros [= ->]. lia.
    - intros Hi. specialize (IH i Hi). lia. }
  destruct e, f; simpl; try done;
    repeat match goal with o : option Expression |- _ => destruct o end;
    simpl; try done; try (intros [= ->]; lia);
    intros Hi; apply Hs in Hi; lia.
Qed.

(** A tree in which no break or switch targets [n] is as well scoped
    without [n]. *)
Lemma scoped_without n e :
  ∀ env1 env2,
    scoped env1 e = true →
    anyNode (λ x, bool_decide (n ∈ ownTargets x)) e = false →
    (∀ x, x ∈ env1 → x = n ∨ x ∈ env2) →
    scoped env2 e = true.
Proof.
  remember (nodeCount e) as N eqn:HN. revert e HN.
  induction N as [N IH] using lt_wf_ind. intros e -> env1 env2 Hsc Hno Henv.
  destruct (scoped_inv _ _ Hsc) as [Ht Hch].
  destruct (anyNode_inv _ _ Hno) as [Hown Hsub].
  apply bool_decide_eq_false in Hown.
  apply scoped_intro.
  - intros m Hm. destruct (Henv m (Ht m Hm)) as [->|]; done.
  - intros f c Hf.
    eapply (IH (nodeCount c)); [by eapply getField_nodeCount|done| | |].
    + by eapply Hch.
    + by eapply Hsub.
    + unfold bindLabel. destruct (Name_is (ownLabel e)); [|done].
      intros x [->|Hx]%elem_of_cons; [right; by left|].
      destruct (Henv x Hx); [by left|right; by right].
Qed.

Lemma spec_seekerSound : seekerSound (collab := specCollaborators).
Proof.
  intros tree name env Hno Hsc. apply (scoped_without name tree _ env Hsc Hno).
  unfold bindLabel. destruct (Name_is name); [|by right].
  intros x [->|Hx]%elem_of_cons; [by left|by right].
Qed.

Lemma spec_simplifyKeepsScope : simplifyKeepsScope (collab := specCollaborators).
Proof.
  intros env block Hsc. simpl. unfold specSimplifyToContents.
  destruct block as [name [|child [|? ?]] ty| | | | | | | | | | | | | | | | | | | | | |];
    try done.
  destruct (specBreakSeeker_has child name) eqn:Hhas; [done|].
  apply (spec_seekerSound child name env Hhas).
  destruct (scoped_inv _ _ Hsc) as [_ Hch]. by apply (Hch (fList 0)).
Qed.

Section Scope.
Context {collab : Collaborators}.
Hypothesis seeker_sound : seekerSound.
Hypothesis simplify_keeps : simplifyKeepsScope.

Lemma scoped_drop env x : scoped env (drop x) = scoped env x.
Proof. unfold drop. by case_bool_decide. Qed.

Lemma scoped_Block env name l ty :
  scoped env (Block name l ty) = true ↔
  ∀ i c, l !! i = Some c → scoped (bindLabel name env) c = true.
Proof.
  split.
  - intros H i c Hc. destruct (scoped_inv _ _ H) as [_ Hch].
    by apply (Hch (fList i)).
  - intros H. apply scoped_intro; [by intros n ?%elem_of_nil|].
    intros [] c; simpl; try done. apply H.
Qed.

Lemma rule_scoped env operands type r :
  evaluationOrderRule operands type = Some r →
  (∀ i x, operands !! i = Some x → scoped env x = true) →
  scoped env r = true.
Proof.
  unfold evaluationOrderRule. intros Hr Hops.
  destruct (firstUnreachable operands) as [k|]; simpl in Hr; [|done].
  destruct (operands !! k) as [dead|] eqn:Hd; simpl in Hr; [|done].
  simplify_eq. case_bool_decide; [by eapply Hops|].
  apply scoped_Block. intros i c Hc. simpl.
  apply lookup_app_Some in Hc as [Hc|[_ Hc]].
  - apply list_lookup_fmap_Some in Hc as (x & -> & Hx).
    rewrite scoped_drop. apply lookup_take_Some in Hx as [Hx _].
    by eapply Hops.
  - apply list_lookup_singleton_Some in Hc as [_ <-]. by eapply Hops.
Qed.

Lemma followRule_scoped env e fl operands type self' :
  followRule (onNode e fl) operands type = Some self' →
  scoped env e = true →
  (∀ i x, operands !! i = Some x → scoped env x = true) →
  scoped env (body self') = true.
Proof.
  unfold followRule. intros Hf He Hops.
  destruct (evaluationOrderRule operands type) as [r|] eqn:Hr.
  - unfold replaceCurrent in Hf. simpl in Hf. simplify_eq. simpl.
    by eapply rule_scoped.
  - by simplify_eq.
Qed.

Ltac scope_goal Hch :=
  unfold bindLabel in *; simpl in *;
  repeat match goal with
         | H : _ && _ = true |- _ => apply andb_true_iff in H as [? ?]
         end;
  rewrite ?scoped_drop, ?andb_true_iff; repeat split; try done;
  first [by apply (Hch fCondition)|by apply (Hch fIfTrue)
        |by apply (Hch fIfFalse)|by apply (Hch fBody)|by apply (Hch fValue)
        |by apply (Hch fTarget)|by apply (Hch fPtr)|by apply (Hch fLeft)
        |by apply (Hch fRight)].

(** A visitor leaves a well-scoped node well scoped. *)
Lemma visitNode_scoped env e fl e' fl' :
  visitNode e fl = Some (e', fl') →
  scoped env e = true → scoped env e' = true.
Proof using seeker_sound simplify_keeps.
  unfold visitNode. intros Hv Hsc.
  destruct (visit (onNode e fl) e) as [self'|] eqn:Hvisit; simpl in Hv; [|done].
  simplify_eq.
  assert (Hcalls : ∀ operands type,
    fst <$> handleCall (onNode e fl) operands type
    = followRule (onNode e fl) operands type)
    by apply handleCall_followRule.
  pose proof (scoped_inv _ _ Hsc) as [_ Hch].
  destruct e; simpl in Hvisit, Hch.
  - (* Block *)
    unfold visitBlock in Hvisit. simpl in Hvisit.
    set (list' := if negb (fl_reachable fl) && bool_decide (1 < length list)
                  then shorten list else list) in *.
    assert (Hlist' : ∀ ty, scoped env (Block name list' ty) = true).
    { intros ty. apply scoped_Block. intros i c Hc. apply (Hch (fList i)). simpl.
      unfold list' in Hc. destruct (_ && _); [|done].
      rewrite shorten_spec in Hc.
      by eapply prefix_lookup_Some, truncate_prefix. }
    destruct (_ && _) in Hvisit.
    + unfold replaceCurrent in Hvisit. simpl in Hvisit.
      destruct (Name_is name); simpl in Hvisit; simplify_eq; simpl;
        by apply simplify_keeps.
    + destruct (Name_is name); simpl in Hvisit; simplify_eq; simpl;
        exact (Hlist' none).
  - (* If *)
    unfold visitIf, replaceCurrent in Hvisit. simpl in Hvisit.
    destruct (fl_ifStack fl); [done|]. case_match; simplify_eq/=.
    + by apply (Hch fCondition).
    + done.
  - (* Loop *)
    unfold visitLoop, replaceCurrent in Hvisit. simpl in Hvisit.
    destruct (isUnreachable e && negb (BreakSeeker_has e name)) eqn:Hrep.
    + apply andb_true_iff in Hrep as [_ Hhas%negb_true_iff].
      destruct (Name_is name); simpl in Hvisit; simplify_eq; simpl;
        apply (seeker_sound e name env Hhas); by apply (Hch fBody).
    + destruct (Name_is name); by simplify_eq.
  - (* Break *)
    unfold visitBreak, replaceCurrent, addBreak in Hvisit. simpl in Hvisit.
    repeat case_match; simplify_eq/=; scope_goal Hch.
  - (* Switch *)
    unfold visitSwitch, replaceCurrent in Hvisit.
    rewrite foldl_addBreak in Hvisit. unfold addBreak in Hvisit.
    simpl in Hvisit.
    repeat case_match; simplify_eq/=; scope_goal Hch.
  - (* Call *)
    unfold visitCall in Hvisit. rewrite Hcalls in Hvisit.
    eapply followRule_scoped; [done..|]. intros i x. apply (Hch (fOperand i)).
  - unfold visitCallImport in Hvisit. rewrite Hcalls in Hvisit.
    eapply followRule_scoped; [done..|]. intros i x. apply (Hch (fOperand i)).
  - (* CallIndirect *)
    rewrite visitCallIndirect_eq in Hvisit.
    destruct (firstUnreachable operands).
    + eapply followRule_scoped; [done..|]. intros i x. apply (Hch (fOperand i)).
    + simpl in Hvisit. case_bool_decide; [|by simplify_eq].
      unfold replaceCurrent in Hvisit. simpl in Hvisit. simplify_eq.
      change (scoped env (newBlock ((makeDrop <$> operands) ++ [e]) type) = true).
      apply scoped_Block. intros i c Hc.
      apply lookup_app_Some in Hc as [Hc|[_ Hc]].
      * apply list_lookup_fmap_Some in Hc as (x & -> & Hx). simpl.
        by apply (Hch (fOperand i)).
      * apply list_lookup_singleton_Some in Hc as [_ <-].
        by apply (Hch fTarget).
  - by simplify_eq.
  - (* SetLocal *)
    unfold visitSetLocal, replaceCurrent in Hvisit. simpl in Hvisit.
    repeat case_match; simplify_eq/=; scope_goal Hch.
  - by simplify_eq.
  - by simplify_eq.
  - (* Load *)
    unfold visitLoad, replaceCurrent in Hvisit. simpl in Hvisit.
    repeat case_match; simplify_eq/=; scope_goal Hch.
  - (* Store *)
    unfold visitStore, replaceCurrent in Hvisit. simpl in Hvisit.
    repeat case_match; simplify_eq/=; scope_goal Hch.
  - by simplify_eq.
  - (* Unary *)
    unfold visitUnary, replaceCurrent in Hvisit. simpl in Hvisit.
    repeat case_match; simplify_eq/=; scope_goal Hch.
  - (* Binary *)
    unfold visitBinary, replaceCurrent in Hvisit. simpl in Hvisit.
    repeat case_match; simplify_eq/=; scope_goal Hch.
  - (* Select *)
    unfold visitSelect, replaceCurrent in Hvisit. simpl in Hvisit.
    repeat case_match; simplify_eq/=; scope_goal Hch.
  - (* Drop *)
    unfold visitDrop, replaceCurrent in Hvisit. simpl in Hvisit.
    repeat case_match; simplify_eq/=; scope_goal Hch.
  - (* Return *)
    unfold visitReturn, replaceCurrent in Hvisit. simpl in Hvisit.
    repeat case_match; simplify_eq/=; scope_goal Hch.
  - (* Host *)
    unfold visitHost in Hvisit. rewrite Hcalls in Hvisit.
    eapply followRule_scoped; [done..|]. intros i x. apply (Hch (fOperand i)).
  - by simplify_eq.
  - unfold visitUnreachable in Hvisit. by simplify_eq/=.
Qed.

Lemma Walk_scoped n e fl e' fl' :
  Walk n e fl e' fl' →
  ∀ env, scoped env e = true → scoped env e' = true.
Proof using seeker_sound simplify_keeps.
  intros HW. revert n e fl e' fl' HW.
  apply (Walk_mut
    (λ n e fl e' fl' _, ∀ env, scoped env e = true → scoped env e' = true)
    (λ n e fs fl e' fl' _,
      ∀ env, (∀ f c, getField e f = Some c → scoped env c = true) →
      (∀ f c, getField e' f = Some c → scoped env c = true)
      ∧ ownLabel e' = ownLabel e ∧ ownTargets e' = ownTargets e)).
  - intros e fl _ env Hsc. by destruct e.
  - intros n e fl e1 fl1 ty' e2 fl2 _ _ _ IH Hv env Hsc.
    destruct (scoped_inv _ _ Hsc) as [Ht Hch].
    destruct (IH _ Hch) as (Hch1 & Hl & Hts).
    eapply visitNode_scoped; [done|]. rewrite scoped_setType.
    apply scoped_intro; rewrite ?Hl, ?Hts; done.
  - intros n1 n2 c t ty fl c' fl1 t' fl2 ty' e2 fl3 _ _ IH1 _ IH2 Hv env Hsc.
    destruct (scoped_inv _ _ Hsc) as [_ Hch]. simpl in Hch.
    eapply visitNode_scoped; [done|].
    apply scoped_intro; [by intros m ?%elem_of_nil|].
    intros [] x; simpl; intros; simplify_eq;
      [by apply IH1, (Hch fCondition)|by apply IH2, (Hch fIfTrue)].
  - intros n1 n2 n3 c t f ty fl c' fl1 t' fl2 fl2' f' fl3 ty' e2 fl4 _
      _ IH1 _ IH2 _ _ IH3 Hv env Hsc.
    destruct (scoped_inv _ _ Hsc) as [_ Hch]. simpl in Hch.
    eapply visitNode_scoped; [done|].
    apply scoped_intro; [by intros m ?%elem_of_nil|].
    intros [] x; simpl; intros; simplify_eq;
      [by apply IH1, (Hch fCondition)|by apply IH2, (Hch fIfTrue)
      |by apply IH3, (Hch fIfFalse)].
  - done.
  - intros n m e f fs fl c c' fl1 e2 fl2 Hf _ IH1 _ IH2 env Hch.
    destruct (IH2 env) as (Hch2 & Hl & Ht).
    { intros f' x Hx. destruct (decide (f = f')) as [<-|Hne].
      - erewrite getField_setField_eq in Hx by done. simplify_eq.
        by eapply IH1, Hch.
      - rewrite getField_setField_ne in Hx by done. by eapply Hch. }
    rewrite ownLabel_setField in Hl. rewrite ownTargets_setField in Ht. done.
Qed.

End Scope.

(** With a break seeker that is sound for scoping and a
    simplify-to-contents helper that keeps blocks well scoped, the pass
    runs to its end on a body in which every break and switch targets a
    label around it, and leaves a body with the same property: no
    rewrite moves a break out of the block or loop it targets. *)
Theorem pass_keeps_breaks_in_scope (collab : Collaborators) func_body :
  seekerSound → simplifyKeepsScope →
  wellFormed func_body = true →
  ∃ self, walkFunction func_body = Done self ∧ wellFormed (body self) = true.
Proof.
  intros Hseek Hsimp Hwf.
  destruct (walkFunction_wellFormed func_body Hwf)
    as (n & e' & fl' & rp & HW & _ & _ & _ & Hwalk).
  exists (machine e' [] rp fl'). split; [done|].
  by apply (Walk_scoped Hseek Hsimp _ _ _ _ _ HW []).
Qed.

Section MoreRuns.
#[local] Existing Instance specCollaborators.

Open Scope string_scope.

(** [visitBlock] of [(block $b (br $b) (nop))]: [reachable] was false
    and is true after it, the label of the block was in
    [reachableBreaks]. *)
Lemma visitor_flag_discipline_witness :
  ∃ self',
    visit block_after_break block_of_break = Some self' ∧
    reachable block_after_break = false ∧
    reachable self' = true ∧
    ((∃ name list_ type, block_of_break = Block name list_ type
                         ∧ Name_is name = true
                         ∧ name ∈ reachableBreaks block_after_break)
     ∨ (∃ c t f ty rest, block_of_break = If c t f ty
                         ∧ ifStack block_after_break = true :: rest)).
Proof.
  assert (Hv : ∃ self', visit block_after_break block_of_break = Some self'
                        ∧ reachable self' = true).
  { eexists. split; [vm_compute; reflexivity|reflexivity]. }
  destruct Hv as (self' & Hv & Hr).
  exists self'. split_and!; [exact Hv|reflexivity|exact Hr|].
  exact (proj1 (visitor_flag_discipline block_after_break block_of_break self' Hv)
           eq_refl Hr).
Defined.

(** The dead [nop] of [(block (return) (nop))] is replaced by an
    [Unreachable], and the loop comes back to the visit of the block. *)
Lemma subtree_walk_frame_witness :
  stack dead_nop_pending = [scan_task [fList 1]; doVisit []] ∧
  getAt (body dead_nop_pending) [fList 1] = Some Nop ∧
  ∃ n self',
    exec n dead_nop_pending = Some self' ∧
    stack self' = [doVisit []] ∧
    getAt (body self') [fList 1] = Some Unreachable ∧
    getAt (body self') [fList 0] = Some (Return None).
Proof.
  split; [reflexivity|]. split; [reflexivity|].
  destruct (subtree_walk_frame dead_nop_pending [fList 1] [doVisit []] Nop
              eq_refl eq_refl)
    as (n & self' & e' & Hex & _ & Hs & _ & Hget & Hframe & _ & Hdead).
  exists n, self'. split_and!; [exact Hex|exact Hs| |].
  - destruct (Hdead eq_refl) as (He & _). rewrite Hget, He. reflexivity.
  - rewrite (Hframe [fList 0]); [reflexivity|].
    exists [], (fList 1), (fList 0), [], [].
    split_and!; [reflexivity..|discriminate].
Defined.

(** [visitBinary] of [(i32.add (call $f) (unreachable))]: the node is
    replaced by a block of the dropped call and the [unreachable]. *)
Lemma operator_visitors_follow_rule_witness :
  getCurrent (atVisit add_dead_right) = Some add_dead_right ∧
  ∃ self',
    visit (atVisit add_dead_right) add_dead_right = Some self' ∧
    getCurrent self' = Some (Block None [Drop call_f none; Unreachable] i32).
Proof.
  split; [reflexivity|].
  destruct (operator_visitors_follow_rule (atVisit add_dead_right)
              add_dead_right 0 0 call_f Unreachable Nop i32 eq_refl)
    as (_ & _ & _ & _ & _ & HBinary & _).
  destruct (HBinary eq_refl)
    as (dead & self' & Hdead & _ & _ & _ & Hvisit & Hget & _).
  exists self'. split; [exact Hvisit|].
  injection Hdead as <-. exact Hget.
Defined.

(** [visitCallIndirect] of a call without operands and with a dead
    target: the call is replaced by a block of the target alone. *)
Lemma visitCallIndirect_rule_witness :
  getCurrent (atVisit call_indirect_dead_target)
  = Some call_indirect_dead_target ∧
  ∃ self',
    visit (atVisit call_indirect_dead_target) call_indirect_dead_target
    = Some self' ∧
    getCurrent self' = Some (Block None [Unreachable] i32).
Proof.
  split; [reflexivity|].
  destruct (visitCallIndirect_rule (atVisit call_indirect_dead_target)
              [] Unreachable i32 eq_refl)
    as (_ & self' & Hvisit & Hget & _).
  exists self'. split; [exact Hvisit|exact Hget].
Defined.

(** [visitBreak] of [(br $b (unreachable))]: the break is replaced by
    its value, and its label is not recorded. *)
Lemma dead_operand_of_break_switch_return_witness :
  getCurrent (atVisit break_dead_value) = Some break_dead_value ∧
  ∃ self',
    visit (atVisit break_dead_value) break_dead_value = Some self' ∧
    getCurrent self' = Some Unreachable ∧
    reachableBreaks self' = ∅.
Proof.
  split; [reflexivity|].
  destruct (dead_operand_of_break_switch_return
              (atVisit break_dead_value) break_dead_value
              (Some "b") [] None (Some Unreachable) None Unreachable unreachable
              eq_refl)
    as (HBreak & _).
  destruct (HBreak eq_refl eq_refl)
    as (_ & dead & self' & Hdead & _ & _ & _ & Hvisit & Hget & _ & Hfl & _).
  exists self'. split_and!; [exact Hvisit| |exact (proj1 (proj2 Hfl))].
  injection Hdead as <-. exact Hget.
Defined.

(** The helpers as the specification describes them meet both
    conditions, and [(block $out (result i32) (br $out (loop ...)))]
    stays well scoped. *)
Lemma pass_keeps_breaks_in_scope_witness :
  seekerSound ∧ simplifyKeepsScope ∧
  wellFormed break_after_loop = true ∧
  ∃ self, walkFunction break_after_loop = Done self
          ∧ wellFormed (body self) = true.
Proof.
  split; [exact spec_seekerSound|]. split; [exact spec_simplifyKeepsScope|].
  split; [reflexivity|].
  exact (pass_keeps_breaks_in_scope specCollaborators break_after_loop
           spec_seekerSound spec_simplifyKeepsScope eq_refl).
Defined.

End MoreRuns.

End DCEMore.
